(** * pgls: a shallow embedding of [pgls/__init__.py]

    The development follows the layout of the source file:
    - [Size.human] and [Count.human], with Python's [int / int] and [round]
      written out on exact dyadic numbers;
    - the dataclasses [Field], [Table], [Database] and their [display];
    - [fetch_fields], [fetch_tables], [fetch_databases],
      [fetch_and_display_all] and [main] in a state-and-exception monad over
      a database server that answers [connect], [fetch] and [close]. *)

From Stdlib Require Import ZArith List String Ascii Bool Lia.
From Stdlib Require Import DecimalString.
Import ListNotations.

Local Open Scope string_scope.
Local Open Scope list_scope.
Local Open Scope Z_scope.

(** ** Python numbers *)

Module PyNum.

(** [round_half_even num den] is the integer nearest to [num / den]
    ([0 < den]); a tie goes to the even neighbour.  It is the rounding of
    IEEE 754 binary64 arithmetic and of Python's [round]. *)
Definition round_half_even (num den : Z) : Z :=
  let q := num / den in
  match 2 * (num mod den) ?= den with
  | Lt => q
  | Gt => q + 1
  | Eq => if Z.even q then q else q + 1
  end.

(** A finite binary64 value, as the exact number [mant * 2 ^ expo]. *)
Record float : Type := mkFloat { mant : Z; expo : Z }.

(** [ilog2_ratio a b] is [floor (log2 (a / b))] for [0 < a] and [0 < b]. *)
Definition ilog2_ratio (a b : Z) : Z :=
  let e0 := Z.log2 a - Z.log2 b in
  if a * 2 ^ Z.max 0 (- e0) <? b * 2 ^ Z.max 0 e0 then e0 - 1 else e0.

(** Python's [a / b] on two [int]s: the binary64 number nearest to the
    exact quotient (53 significant bits, ties to even, subnormals below
    [2 ^ -1022]).  [None] stands for the exception the operation raises:
    [ZeroDivisionError] when [b = 0], [OverflowError] when the quotient
    rounds to [2 ^ 1024] or more. *)
Definition true_divide (a b : Z) : option float :=
  if b =? 0 then None
  else if a =? 0 then Some (mkFloat 0 0)
  else
    let a' := Z.abs a in
    let b' := Z.abs b in
    let e := ilog2_ratio a' b' in
    let s := Z.max (e - 52) (-1074) in
    let m := round_half_even (a' * 2 ^ Z.max 0 (- s)) (b' * 2 ^ Z.max 0 s) in
    if (0 <=? s) && (2 ^ 1024 <=? m * 2 ^ s) then None
    else Some (mkFloat (Z.sgn a * Z.sgn b * m) s).

(** Python's [round(x)] on a finite float: the nearest [int], ties to
    even. *)
Definition py_round (x : float) : Z :=
  round_half_even (mant x * 2 ^ Z.max 0 (expo x)) (2 ^ Z.max 0 (- expo x)).

(** [str(n)] / [f"{n}"] on an [int]: decimal digits, [-] in front of a
    negative number. *)
Definition str_int (n : Z) : string := NilZero.string_of_int (Z.to_int n).

End PyNum.

Import PyNum.

(** ** The dataclasses *)

(** [Size.human]: the [if]/[elif] chain picks [power] and [suffix], then
    [value = round(self.bytes / 1024 ** power)] and the result is
    [f"{value} {suffix}"].  [None] is the [OverflowError] of the
    division. *)
Module Size.

Record t : Type := mk { bytes : Z }.

Definition unit_of (self : t) : Z * string :=
  if 1024 ^ 4 <=? bytes self then (4, "TiB")
  else if 1024 ^ 3 <=? bytes self then (3, "GiB")
  else if 1024 ^ 2 <=? bytes self then (2, "MiB")
  else if 1024 ^ 1 <=? bytes self then (1, "KiB")
  else (0, "bytes").

Definition human (self : t) : option string :=
  let '(power, suffix) := unit_of self in
  match true_divide (bytes self) (1024 ^ power) with
  | Some q => Some (str_int (py_round q) ++ " " ++ suffix)%string
  | None => None
  end.

End Size.

(** [Count.human]: the same shape on powers of 1000; the result is
    [f"{value}{suffix}"], the space being part of the last suffix only. *)
Module Count.

Record t : Type := mk { count : Z }.

Definition unit_of (self : t) : Z * string :=
  if 1000 ^ 3 <=? count self then (3, "kkk rows")
  else if 1000 ^ 2 <=? count self then (2, "kk rows")
  else if 1000 ^ 1 <=? count self then (1, "k rows")
  else (0, " rows").

Definition human (self : t) : option string :=
  let '(power, suffix) := unit_of self in
  match true_divide (count self) (1000 ^ power) with
  | Some q => Some (str_int (py_round q) ++ suffix)%string
  | None => None
  end.

End Count.

Module Field.

Record t : Type := mk {
  name : string;
  description : option string;
  type : string;
  default : option string;
  nullable : bool
}.

End Field.

Module Table.

Record t : Type := mk {
  schema : string;
  name : string;
  description : option string;
  size : Size.t;
  rows : Count.t;
  fields : list Field.t
}.

End Table.

Module Database.

Record t : Type := mk {
  name : string;
  description : option string;
  owner : string;
  size : Size.t;
  tables : list Table.t
}.

End Database.

(** ** The rows the three queries return *)

(** One record per [select] list, a field per column alias. *)
Record DatabaseRow : Type := mkDatabaseRow {
  db_name : string;
  db_owner : string;
  db_description : option string;
  db_size : Z
}.

Record TableRow : Type := mkTableRow {
  tb_schema : string;
  tb_name : string;
  tb_description : option string;
  tb_size : Z;
  tb_rows : Z
}.

Record ColumnRow : Type := mkColumnRow {
  col_schema_name : string;
  col_table_name : string;
  col_name : string;
  col_type : string;
  col_default : option string;
  col_nullable : bool
}.

(** ** Exceptions, the server and the state of a run *)

Inductive exn : Type :=
| InsufficientPrivilegeError
| PostgresError (message : string)
| NotImplementedError
| UnboundLocalError
| OverflowError.

(** The three [connection.fetch] calls, told apart by their text; the
    only part that varies is the [order by] expression. *)
Inductive query : Type :=
| SelectDatabases (order_by : string)
| SelectTables (order_by : string)
| SelectColumns.

(** What the server answers.  A connection is made to a DSN; the answer to
    a query depends on the DSN of the connection it is sent on. *)
Record server : Type := mkServer {
  refuses : string -> option exn;
  database_rows : string -> string -> exn + list DatabaseRow;
  table_rows : string -> string -> exn + list TableRow;
  column_rows : string -> exn + list ColumnRow
}.

Record connection : Type := mkConnection { conn_id : nat; conn_dsn : string }.

Inductive event : Type :=
| Connected (c : connection)
| ConnectRaised (dsn : string) (e : exn)
| Fetched (c : connection) (q : query)
| FetchRaised (c : connection) (q : query) (e : exn)
| Closed (c : connection)
| Yielded (d : Database.t).

(** [opened]: the connections made and not closed; [log]: what happened,
    oldest first; [stdout]: one entry per [print] call, without the final
    newline. *)
Record state : Type := mkState {
  next_id : nat;
  opened : list connection;
  log : list event;
  stdout : list string
}.

Definition initial : state := mkState 0 [] [] [].

(** ** The monad of the program: state and exceptions *)

Definition M (A : Type) : Type := state -> (exn + A) * state.

Definition ret {A} (a : A) : M A := fun st => (inr a, st).

Definition raise {A} (e : exn) : M A := fun st => (inl e, st).

Definition bind {A B} (m : M A) (k : A -> M B) : M B :=
  fun st =>
    match m st with
    | (inr a, st') => k a st'
    | (inl e, st') => (inl e, st')
    end.

Notation "x <- m ;; k" := (bind m (fun x => k))
  (at level 61, m at next level, right associativity).
Notation "m ;; k" := (bind m (fun _ => k))
  (at level 61, right associativity).

(** [try: body except InsufficientPrivilegeError: handler]; any other
    exception goes on. *)
Definition try_except_privilege {A} (body handler : M A) : M A :=
  fun st =>
    match body st with
    | (inl InsufficientPrivilegeError, st') => handler st'
    | r => r
    end.

(** [for x in xs: body x]. *)
Fixpoint for_each {A} (xs : list A) (body : A -> M unit) : M unit :=
  match xs with
  | [] => ret tt
  | x :: rest => body x ;; for_each rest body
  end.

Definition emit (ev : event) : M unit :=
  fun st => (inr tt, mkState (next_id st) (opened st) (log st ++ [ev]) (stdout st)).

(** [print] with an empty separator: the arguments are joined before the
    call. *)
Definition print (line : string) : M unit :=
  fun st => (inr tt, mkState (next_id st) (opened st) (log st) (stdout st ++ [line])).

(** A call of [human()] inside an f-string. *)
Definition or_overflow (r : option string) : M string :=
  match r with
  | Some s => ret s
  | None => raise OverflowError
  end.

Definition same_connection (c1 c2 : connection) : bool :=
  Nat.eqb (conn_id c1) (conn_id c2).

Section Server.

Variable srv : server.

(** [await asyncpg.connect(dsn)]. *)
Definition connect (dsn : string) : M connection :=
  fun st =>
    match refuses srv dsn with
    | Some e =>
        (inl e, mkState (next_id st) (opened st)
                        (log st ++ [ConnectRaised dsn e]) (stdout st))
    | None =>
        let c := mkConnection (next_id st) dsn in
        (inr c, mkState (S (next_id st)) (c :: opened st)
                        (log st ++ [Connected c]) (stdout st))
    end.

(** [await connection.fetch(text)], one function per result shape. *)
Definition fetch {A} (answer : exn + A) (c : connection) (q : query) : M A :=
  match answer with
  | inl e => emit (FetchRaised c q e) ;; raise e
  | inr data => emit (Fetched c q) ;; ret data
  end.

Definition fetch_database_rows (c : connection) (order_by : string)
  : M (list DatabaseRow) :=
  fetch (database_rows srv (conn_dsn c) order_by) c (SelectDatabases order_by).

Definition fetch_table_rows (c : connection) (order_by : string)
  : M (list TableRow) :=
  fetch (table_rows srv (conn_dsn c) order_by) c (SelectTables order_by).

Definition fetch_column_rows (c : connection) : M (list ColumnRow) :=
  fetch (column_rows srv (conn_dsn c)) c SelectColumns.

(** [await connection.close()]. *)
Definition close (c : connection) : M unit :=
  fun st =>
    (inr tt, mkState (next_id st)
                     (filter (fun c' => negb (same_connection c c')) (opened st))
                     (log st ++ [Closed c]) (stdout st)).

End Server.

(** ** Rendering *)

(** [colorama.Fore]: the ANSI escape sequences behind the names the
    source uses. *)
Module F.

Definition ESC : string := String (ascii_of_nat 27) "[".

Definition RED : string := (ESC ++ "31m")%string.
Definition GREEN : string := (ESC ++ "32m")%string.
Definition BLUE : string := (ESC ++ "34m")%string.
Definition CYAN : string := (ESC ++ "36m")%string.
Definition LIGHTWHITE_EX : string := (ESC ++ "97m")%string.
Definition RESET : string := (ESC ++ "39m")%string.

End F.

(** The bullet U+2022 of the source, as its three UTF-8 bytes, followed by
    the space of the f-strings. *)
Definition bullet : string :=
  String (ascii_of_nat 226) (String (ascii_of_nat 128)
    (String (ascii_of_nat 162) " ")).

(** ["  " * ident]. *)
Fixpoint indent (ident : nat) : string :=
  match ident with
  | O => EmptyString
  | S n => ("  " ++ indent n)%string
  end.

(** Truth value of an [Optional[str]]: [None] and the empty string are
    false. *)
Definition truthy (o : option string) : option string :=
  match o with
  | Some EmptyString => None
  | other => other
  end.

(** The text [Field.display] hands to [print]. *)
Definition Field_line (self : Field.t) (ident : nat) : string :=
  let nullable :=
    if Field.nullable self
    then (" " ++ F.RED ++ "(nullable)" ++ F.RESET)%string
    else EmptyString in
  (indent ident
   ++ (bullet ++ F.GREEN ++ Field.name self ++ F.RESET ++ " ")
   ++ ("| " ++ Field.type self)
   ++ nullable)%string.

Definition Field_display (self : Field.t) (ident : nat) : M unit :=
  print (Field_line self ident).

(** The optional description block shared by [Table.display] and
    [Database.display]: the text one level deeper, then an empty line. *)
Definition display_description (description : option string) (ident : nat)
  : M unit :=
  match truthy description with
  | Some text =>
      print (indent (S ident) ++ F.LIGHTWHITE_EX ++ text ++ F.RESET)%string ;;
      print EmptyString
  | None => ret tt
  end.

(** The first line [Table.display] prints, given the two [human()]
    strings. *)
Definition Table_line (self : Table.t) (ident : nat) (size rows : string)
  : string :=
  (indent ident
   ++ (bullet ++ F.BLUE ++ Table.schema self ++ "." ++ Table.name self
       ++ F.RESET ++ " ")
   ++ F.LIGHTWHITE_EX
   ++ ("(" ++ size ++ ", " ++ rows ++ ")")
   ++ F.RESET
   ++ (" " ++ F.LIGHTWHITE_EX ++ "(table)" ++ F.RESET))%string.

Definition Table_display (self : Table.t) (ident : nat) : M unit :=
  size <- or_overflow (Size.human (Table.size self)) ;;
  rows <- or_overflow (Count.human (Table.rows self)) ;;
  print (Table_line self ident size rows) ;;
  display_description (Table.description self) ident ;;
  for_each (Table.fields self) (fun field => Field_display field (S ident)).

Definition Database_line (self : Database.t) (ident : nat) (size : string)
  : string :=
  (indent ident
   ++ (bullet ++ F.CYAN ++ Database.name self ++ F.RESET ++ " ")
   ++ F.LIGHTWHITE_EX
   ++ ("(" ++ size ++ ")")
   ++ F.RESET
   ++ (" " ++ F.LIGHTWHITE_EX ++ "(database)" ++ F.RESET))%string.

Definition Database_display (self : Database.t) (ident : nat) : M unit :=
  size <- or_overflow (Size.human (Database.size self)) ;;
  print (Database_line self ident size) ;;
  display_description (Database.description self) ident ;;
  for_each (Database.tables self) (fun table => Table_display table (S ident)).

(** ** Fetching *)

(** [fetch_fields]: the list comprehension keeps the rows of the table,
    the loop appends one [Field] per kept row. *)
Definition row_of_table (schema_name table_name : string) (row : ColumnRow)
  : bool :=
  forallb (fun b : bool => b)
    [ String.eqb (col_schema_name row) schema_name;
      String.eqb (col_table_name row) table_name ].

Definition Field_of_row (row : ColumnRow) : Field.t :=
  Field.mk (col_name row) None (col_type row) (col_default row)
           (col_nullable row).

Definition fetch_fields (prefetched_fields : list ColumnRow)
    (schema_name table_name : string) : list Field.t :=
  let data := filter (row_of_table schema_name table_name) prefetched_fields in
  fold_left (fun fields row => fields ++ [Field_of_row row]) data [].

Definition Table_of_row (fields_data : list ColumnRow) (row : TableRow)
  : Table.t :=
  Table.mk (tb_schema row) (tb_name row) (tb_description row)
           (Size.mk (tb_size row)) (Count.mk (tb_rows row))
           (fetch_fields fields_data (tb_schema row) (tb_name row)).

Definition Database_of_row (row : DatabaseRow) (tables : list Table.t)
  : Database.t :=
  Database.mk (db_name row) (db_description row) (db_owner row)
              (Size.mk (db_size row)) tables.

(** The two [order by] expressions of [fetch_tables]; [dq] is the double
    quote of the SQL text. *)
Definition dq : string := String (ascii_of_nat 34) EmptyString.

Definition table_size_desc : string :=
  "pg_table_size('" ++ dq ++ "' || schemaname || '" ++ dq ++ "." ++ dq
  ++ "' || tablename || '" ++ dq ++ "') desc".

Section Pipeline.

Variable srv : server.

(** [fetch_tables]: the sort mode is checked before the connection is
    made; [close] is the last statement before [return], outside any
    [try]/[finally]. *)
Definition fetch_tables (base_dsn database_name sort : string)
    (show_fields : bool) : M (list Table.t) :=
  order_by_expression <-
    (if String.eqb sort "name" then ret "schemaname, tablename"%string
     else if String.eqb sort "size" then ret table_size_desc
     else raise NotImplementedError) ;;
  connection <- connect srv (base_dsn ++ "/" ++ database_name)%string ;;
  data <- fetch_table_rows srv connection order_by_expression ;;
  fields_data <-
    (if show_fields then fetch_column_rows srv connection else ret []) ;;
  let tables :=
    fold_left (fun tables row => tables ++ [Table_of_row fields_data row])
              data [] in
  close connection ;;
  ret tables.

(** The body of [for row in data] in [fetch_databases].  The local
    variable [tables] lives across iterations: [None] is the unbound
    name, [Some ts] its current value.  [consume] is the body of the
    [async for] of the caller, run while the generator is suspended at
    [yield]. *)
Fixpoint fetch_databases_loop (base_dsn sort : string)
    (show_tables show_fields : bool) (consume : Database.t -> M unit)
    (data : list DatabaseRow) (tables : option (list Table.t)) : M unit :=
  match data with
  | [] => ret tt
  | row :: rest =>
      tables' <-
        (if show_tables then
           try_except_privilege
             (ts <- fetch_tables base_dsn (db_name row) sort show_fields ;;
              ret (Some ts))
             (ret tables)
         else ret (Some [])) ;;
      match tables' with
      | None => raise UnboundLocalError
      | Some ts =>
          let database := Database_of_row row ts in
          emit (Yielded database) ;;
          consume database ;;
          fetch_databases_loop base_dsn sort show_tables show_fields consume
                               rest tables'
      end
  end.

Definition fetch_databases (base_dsn sort : string)
    (show_tables show_fields : bool) (consume : Database.t -> M unit)
  : M unit :=
  order_by_expression <-
    (if String.eqb sort "name" then ret "db.datname"%string
     else if String.eqb sort "size"
          then ret "pg_database_size(db.datname) desc"%string
     else raise NotImplementedError) ;;
  connection <- connect srv (base_dsn ++ "/postgres")%string ;;
  data <- fetch_database_rows srv connection order_by_expression ;;
  fetch_databases_loop base_dsn sort show_tables show_fields consume
                       data None ;;
  close connection.

Definition fetch_and_display_all (dsn sort tables indexes views fields : string)
  : M unit :=
  fetch_databases dsn sort (String.eqb tables "show") (String.eqb fields "show")
                  (fun database => Database_display database 0).

(** The keyword arguments [click] builds from the command line. *)
Record kwargs : Type := mkKwargs {
  kw_sort : string;
  kw_tables : string;
  kw_fields : string;
  kw_views : string;
  kw_indexes : string;
  kw_dsn : string
}.

Definition main (kw : kwargs) : M unit :=
  fetch_and_display_all (kw_dsn kw) (kw_sort kw) (kw_tables kw)
                        (kw_indexes kw) (kw_views kw) (kw_fields kw).

End Pipeline.

(** ** Example servers *)

Module Examples.

Definition users_table : TableRow :=
  mkTableRow "public" "users" None 8192 3.

Definition users_columns : list ColumnRow :=
  [ mkColumnRow "public" "users" "id" "integer" None false;
    mkColumnRow "public" "orders" "id" "integer" None false;
    mkColumnRow "public" "users" "email" "text" None true;
    mkColumnRow "Public" "users" "id" "bigint" None false ].

Definition shop : DatabaseRow := mkDatabaseRow "shop" "alice" None 1536.
Definition vault : DatabaseRow :=
  mkDatabaseRow "vault" "bob" (Some "secrets") 2048.

(** Two databases; the role may list the tables of [shop] only: the
    table query on [vault] raises [InsufficientPrivilegeError]. *)
Definition guarded (first second : DatabaseRow) : server :=
  mkServer
    (fun _ => None)
    (fun _ _ => inr [first; second])
    (fun dsn _ =>
       if String.eqb dsn "pg://host/vault" then inl InsufficientPrivilegeError
       else inr [users_table])
    (fun _ => inr users_columns).

(** The same server with every table listing allowed. *)
Definition open_server : server :=
  mkServer
    (fun _ => None)
    (fun _ _ => inr [shop; vault])
    (fun _ _ => inr [users_table])
    (fun _ => inr users_columns).

Definition options (tables : string) : kwargs :=
  mkKwargs "name" tables "show" "show" "show" "pg://host".

End Examples.

(** ** The formatters as the specification words them *)

(** The first threshold the value meets or exceeds, the value divided by
    it and rounded to the nearest integer, then the unit; the raw value
    below the last threshold. *)
Definition format_with (thresholds : list (Z * string)) (raw_suffix : string)
    (n : Z) : string :=
  match find (fun th => fst th <=? n) thresholds with
  | Some (th, suffix) => (str_int (round_half_even n th) ++ suffix)%string
  | None => (str_int n ++ raw_suffix)%string
  end.

Definition formatSize_spec : Z -> string :=
  format_with [(1024 ^ 4, " TiB"); (1024 ^ 3, " GiB"); (1024 ^ 2, " MiB");
               (1024 ^ 1, " KiB")] " bytes".

Definition formatCount_spec : Z -> string :=
  format_with [(1000 ^ 3, "kkk rows"); (1000 ^ 2, "kk rows");
               (1000 ^ 1, "k rows")] " rows".

(** The filter and the map of [assembleFields], as the specification
    words them: exact equality of both names, the order of the input, no
    description. *)
Definition same_table (schema table : string) (row : ColumnRow) : bool :=
  if string_dec (col_schema_name row) schema
  then if string_dec (col_table_name row) table then true else false
  else false.

Definition assembleFields_spec (allColumnRows : list ColumnRow)
    (schema table : string) : list Field.t :=
  map (fun row => Field.mk (col_name row) None (col_type row)
                           (col_default row) (col_nullable row))
      (filter (same_table schema table) allColumnRows).

(** ** Predicates on texts, logs and states *)

(** [pat in s] of Python: [pat] occurs in [s]. *)
Fixpoint contains (pat s : string) : bool :=
  if String.prefix pat s then true
  else match s with
       | EmptyString => false
       | String _ rest => contains pat rest
       end.

(** The character [c] occurs in [s]; no character of [s] occurs in
    [pat]. *)
Fixpoint has_char (c : ascii) (s : string) : bool :=
  match s with
  | EmptyString => false
  | String a rest => Ascii.eqb c a || has_char c rest
  end.

Fixpoint foreign (pat s : string) : bool :=
  match s with
  | EmptyString => true
  | String c rest => negb (has_char c pat) && foreign pat rest
  end.

(** The text of the marker of a nullable field. *)
Definition nullable_marker : string := "(nullable)".

(** Every open connection was made by an earlier [connect]. *)
Definition wf (st : state) : bool :=
  forallb (fun c => Nat.ltb (conn_id c) (next_id st)) (opened st).

(** No [fetch] has raised. *)
Definition fetch_raised (ev : event) : bool :=
  match ev with
  | FetchRaised _ _ _ => true
  | _ => false
  end.

Definition quiet (evs : list event) : bool :=
  forallb (fun ev => negb (fetch_raised ev)) evs.

(** What a run without table listing may log: traffic with the
    [postgres] database only, and databases without tables. *)
Definition no_table_fetch (base_dsn : string) (ev : event) : Prop :=
  match ev with
  | Connected c => conn_dsn c = (base_dsn ++ "/postgres")%string
  | ConnectRaised dsn _ => dsn = (base_dsn ++ "/postgres")%string
  | Fetched _ (SelectDatabases _) => True
  | FetchRaised _ (SelectDatabases _) _ => True
  | Fetched _ _ => False
  | FetchRaised _ _ _ => False
  | Closed _ => True
  | Yielded d => Database.tables d = []
  end.

(** The databases a log says were produced, in order. *)
Fixpoint yielded (evs : list event) : list Database.t :=
  match evs with
  | [] => []
  | Yielded d :: rest => d :: yielded rest
  | _ :: rest => yielded rest
  end.

(** A computation that touches [stdout] only. *)
Definition prints_only {A} (m : M A) : Prop :=
  forall st, next_id (snd (m st)) = next_id st
             /\ opened (snd (m st)) = opened st
             /\ log (snd (m st)) = log st.

(** What [Database.display] does for a database without tables: its own
    line and its description. *)
Definition Database_display_alone (self : Database.t) (ident : nat) : M unit :=
  size <- or_overflow (Size.human (Database.size self)) ;;
  print (Database_line self ident size) ;;
  display_description (Database.description self) ident.

(** States and sort modes, named for the statements below: [logged]
    appends events, [connected] registers a fresh connection;
    [database_order] and [table_order] are the two [if]/[elif]/[else]
    chains on [sort], [None] where they raise [NotImplementedError]. *)
Definition logged (st : state) (evs : list event) : state :=
  mkState (next_id st) (opened st) (log st ++ evs) (stdout st).

Definition connected (st : state) (c : connection) : state :=
  mkState (S (next_id st)) (c :: opened st) (log st) (stdout st).

Definition database_order (sort : string) : option string :=
  if String.eqb sort "name" then Some "db.datname"%string
  else if String.eqb sort "size"
       then Some "pg_database_size(db.datname) desc"%string
  else None.

Definition table_order (sort : string) : option string :=
  if String.eqb sort "name" then Some "schemaname, tablename"%string
  else if String.eqb sort "size" then Some table_size_desc
  else None.

(** ** The texts of [display], as values *)

(** [printed st lines]: the state after [lines] went to [stdout]. *)
Definition printed (st : state) (lines : list string) : state :=
  mkState (next_id st) (opened st) (log st) (stdout st ++ lines).

(** The lines of the optional description block. *)
Definition description_lines (description : option string) (ident : nat)
  : list string :=
  match truthy description with
  | Some text =>
      [(indent (S ident) ++ F.LIGHTWHITE_EX ++ text ++ F.RESET)%string;
       EmptyString]
  | None => []
  end.

(** All the lines of a table, of a list of tables and of a database, when
    every [human()] involved returns. *)
Definition Table_text (self : Table.t) (ident : nat) : option (list string) :=
  match Size.human (Table.size self), Count.human (Table.rows self) with
  | Some size, Some rows =>
      Some (Table_line self ident size rows
            :: description_lines (Table.description self) ident
            ++ map (fun field => Field_line field (S ident))
                   (Table.fields self))
  | _, _ => None
  end.

Fixpoint Tables_text (tables : list Table.t) (ident : nat)
  : option (list string) :=
  match tables with
  | [] => Some []
  | table :: rest =>
      match Table_text table ident, Tables_text rest ident with
      | Some lines, Some more => Some (lines ++ more)
      | _, _ => None
      end
  end.

Definition Database_text (self : Database.t) (ident : nat)
  : option (list string) :=
  match Size.human (Database.size self),
        Tables_text (Database.tables self) (S ident) with
  | Some size, Some lines =>
      Some (Database_line self ident size
            :: description_lines (Database.description self) ident ++ lines)
  | _, _ => None
  end.

(** A value a 64-bit signed column can hold. *)
Definition bigint (n : Z) : Prop := - 2 ^ 63 <= n < 2 ^ 63.

(** The row a produced database was built from. *)
Definition row_of_database (d : Database.t) : DatabaseRow :=
  mkDatabaseRow (Database.name d) (Database.owner d) (Database.description d)
                (Size.bytes (Database.size d)).

(** The number of connections a log says were made. *)
Fixpoint count_connected (evs : list event) : nat :=
  match evs with
  | [] => O
  | Connected _ :: rest => S (count_connected rest)
  | _ :: rest => count_connected rest
  end.

(** The queries a log says were sent, answered or not. *)
Fixpoint queries (evs : list event) : list query :=
  match evs with
  | [] => []
  | Fetched _ q :: rest => q :: queries rest
  | FetchRaised _ q _ :: rest => q :: queries rest
  | _ :: rest => queries rest
  end.

(** The lines [Database.display] prints for a database, up to the point
    where it stops. *)
Definition display_output (d : Database.t) : list string :=
  stdout (snd (Database_display d 0 initial)).

(** A computation whose result and printed lines do not depend on the
    state it starts from. *)
Definition uniform {A} (m : M A) : Prop :=
  exists r lines, forall st, m st = (r, printed st lines).

(** The errors the server raised, on connecting or on a query, oldest
    first. *)
Fixpoint raised (evs : list event) : list exn :=
  match evs with
  | [] => []
  | ConnectRaised _ e :: rest => e :: raised rest
  | FetchRaised _ _ e :: rest => e :: raised rest
  | _ :: rest => raised rest
  end.

(** No table carries a field. *)
Definition without_fields (ts : list Table.t) : Prop :=
  Forall (fun t => Table.fields t = []) ts.

(** The lines [Database.display] prints for a database without tables:
    the line of the database and its description block, and nothing when
    the size cannot be formatted. *)
Definition Database_lines_alone (self : Database.t) : list string :=
  match Size.human (Database.size self) with
  | Some size =>
      Database_line self 0 size
      :: description_lines (Database.description self) 0
  | None => []
  end.

(** The connections a log says a query raised on, oldest first. *)
Fixpoint failed (evs : list event) : list connection :=
  match evs with
  | [] => []
  | FetchRaised c _ _ :: rest => c :: failed rest
  | _ :: rest => failed rest
  end.

(** * Theorems *)

(** ** Rounding *)

Section Rounding.

Lemma round_half_even_error (x d : Z) :
  0 < d -> - d <= 2 * (x - round_half_even x d * d) <= d.
Proof.
  intros Hd. unfold round_half_even.
  pose proof (Z.div_mod x d ltac:(lia)) as Hx.
  pose proof (Z.mod_pos_bound x d Hd) as Hr.
  destruct (Z.compare_spec (2 * (x mod d)) d) as [He | Hl | Hg].
  - destruct (Z.even (x / d)); nia.
  - nia.
  - nia.
Qed.

Lemma round_half_even_near (x d j : Z) :
  0 < d -> (2 * j - 1) * d < 2 * x < (2 * j + 1) * d ->
  round_half_even x d = j.
Proof.
  intros Hd [Hlo Hhi]. unfold round_half_even.
  pose proof (Z.div_mod x d ltac:(lia)) as Hx.
  pose proof (Z.mod_pos_bound x d Hd) as Hr.
  assert (Hq : x / d = j \/ x / d = j - 1) by nia.
  destruct (Z.compare_spec (2 * (x mod d)) d) as [He | Hl | Hg];
    destruct Hq as [Hq | Hq]; rewrite Hq in *; nia.
Qed.

Lemma round_half_even_tie (j h : Z) :
  0 < h ->
  round_half_even (j * (2 * h) + h) (2 * h) = if Z.even j then j else j + 1.
Proof.
  intros Hh. unfold round_half_even.
  assert (Hq : (j * (2 * h) + h) / (2 * h) = j).
  { symmetry. apply (Z.div_unique _ _ j h); lia. }
  assert (Hr : (j * (2 * h) + h) mod (2 * h) = h).
  { symmetry. apply (Z.mod_unique _ _ j h); lia. }
  rewrite Hq, Hr.
  replace (2 * h ?= 2 * h) with Eq by (symmetry; apply Z.compare_refl).
  reflexivity.
Qed.

Lemma round_half_even_multiple (j d : Z) :
  0 < d -> round_half_even (j * d) d = j.
Proof.
  intros Hd. apply round_half_even_near; nia.
Qed.

End Rounding.

(** ** Division and rounding of exactly representable integers *)

Section TrueDivide.

Lemma ilog2_ratio_bounds (a b : Z) :
  0 < b <= a ->
  0 <= ilog2_ratio a b /\
  b * 2 ^ ilog2_ratio a b <= a < b * 2 ^ (ilog2_ratio a b + 1).
Proof.
  intros [Hb Hab]. unfold ilog2_ratio.
  pose proof (Z.log2_spec a ltac:(lia)) as [Ha1 Ha2].
  pose proof (Z.log2_spec b Hb) as [Hb1 Hb2].
  pose proof (Z.log2_nonneg b) as Hlb.
  pose proof (Z.log2_le_mono b a Hab) as Hle.
  set (la := Z.log2 a) in *. set (lb := Z.log2 b) in *.
  assert (He0 : 0 <= la - lb) by lia.
  rewrite (Z.max_l 0 (- (la - lb))) by lia.
  rewrite (Z.max_r 0 (la - lb)) by lia.
  rewrite Z.pow_0_r, Z.mul_1_r.
  assert (Hsplit : 2 ^ (la + 1) = 2 ^ (lb + 1) * 2 ^ (la - lb)).
  { rewrite <- Z.pow_add_r by lia. f_equal. lia. }
  assert (Hsplit' : 2 ^ la = 2 ^ lb * 2 ^ (la - lb)).
  { rewrite <- Z.pow_add_r by lia. f_equal. lia. }
  assert (Hp : 0 < 2 ^ (la - lb)) by (apply Z.pow_pos_nonneg; lia).
  destruct (Z.ltb_spec a (b * 2 ^ (la - lb))) as [Hlt | Hge].
  - assert (Hpos : 1 <= la - lb).
    { destruct (Z.eq_dec (la - lb) 0) as [Hz | Hz]; [| lia].
      rewrite Hz, Z.pow_0_r in Hlt. lia. }
    replace (la - lb - 1 + 1) with (la - lb) by lia.
    assert (Hhalf : 2 ^ (la - lb) = 2 * 2 ^ (la - lb - 1)).
    { rewrite <- Z.pow_succ_r by lia. f_equal. lia. }
    assert (Hq : 0 < 2 ^ (la - lb - 1)) by (apply Z.pow_pos_nonneg; lia).
    assert (Hb2' : 2 ^ (lb + 1) = 2 * 2 ^ lb).
    { rewrite Z.pow_add_r by lia. lia. }
    split; [lia | split; [nia | lia]].
  - split; [lia | split; [lia |]].
    assert (Hs1 : 2 ^ (la - lb + 1) = 2 * 2 ^ (la - lb)).
    { rewrite Z.pow_add_r by lia. lia. }
    assert (Hs2 : 2 ^ (la + 1) = 2 * 2 ^ la).
    { rewrite Z.pow_add_r by lia. lia. }
    nia.
Qed.

(** Rounding the 53-bit rounding of [n * T / d] gives the rounding of
    [n / d] as long as [T] is a power of two above [d / 2]. *)
Lemma round_twice (n d t : Z) :
  0 <= n -> 0 < d -> 0 <= t -> d < 2 * 2 ^ t ->
  d = 1 \/ Z.even d = true ->
  round_half_even (round_half_even (n * 2 ^ t) d) (2 ^ t)
  = round_half_even n d.
Proof.
  intros Hn Hd Ht Hdt Hshape.
  assert (HT : 0 < 2 ^ t) by (apply Z.pow_pos_nonneg; lia).
  destruct Hshape as [-> | Heven].
  { pose proof (round_half_even_multiple (n * 2 ^ t) 1 ltac:(lia)) as H1.
    pose proof (round_half_even_multiple n 1 ltac:(lia)) as H2.
    rewrite !Z.mul_1_r in H1, H2. rewrite H1, H2.
    apply round_half_even_multiple. lia. }
  apply Z.even_spec in Heven. destruct Heven as [h ->].
  assert (Hh : 0 < h) by lia.
  assert (Ht1 : 1 <= t).
  { destruct (Z.eq_dec t 0) as [-> | Hz]; [| lia].
    rewrite Z.pow_0_r in Hdt. lia. }
  assert (HT2 : 2 ^ t = 2 * 2 ^ (t - 1)).
  { rewrite <- Z.pow_succ_r by lia. f_equal. lia. }
  assert (HT' : 0 < 2 ^ (t - 1)) by (apply Z.pow_pos_nonneg; lia).
  set (T := 2 ^ t) in *. set (T' := 2 ^ (t - 1)) in *.
  pose proof (round_half_even_error (n * T) (2 * h) ltac:(lia)) as Herr.
  set (M := round_half_even (n * T) (2 * h)) in *.
  pose proof (Z.div_mod n (2 * h) ltac:(lia)) as Hdiv.
  pose proof (Z.mod_pos_bound n (2 * h) ltac:(lia)) as Hr.
  unfold round_half_even at 2.
  set (k := n / (2 * h)) in *. set (r := n mod (2 * h)) in *.
  destruct (Z.compare_spec (2 * r) (2 * h)) as [He | Hl | Hg].
  - assert (HM : M = k * T + T').
    { unfold M.
      replace (n * T) with ((k * T + T') * (2 * h)) by nia.
      apply round_half_even_multiple. lia. }
    rewrite HM, HT2.
    replace (k * (2 * T') + T') with (k * (2 * T') + T') by lia.
    apply round_half_even_tie. lia.
  - apply round_half_even_near; [lia |]. nia.
  - apply round_half_even_near; [lia |]. nia.
Qed.

(** The quotient of an integer of at most 53 bits by a smaller positive
    one is a normal number: the exponent is in range and nothing
    overflows. *)
Lemma true_divide_normal (a b : Z) :
  0 < b <= Z.abs a -> Z.abs a < 2 ^ 53 ->
  let e := ilog2_ratio (Z.abs a) b in
  0 <= e <= 52 /\
  b < 2 * 2 ^ (52 - e) /\
  true_divide a b
  = Some (mkFloat (Z.sgn a * round_half_even (Z.abs a * 2 ^ (52 - e)) b)
                  (e - 52)).
Proof.
  intros [Hb Hba] Ha e.
  destruct (ilog2_ratio_bounds (Z.abs a) b (conj Hb Hba)) as (He0 & Helo & _).
  fold e in He0, Helo.
  assert (Hpe : 0 < 2 ^ e) by (apply Z.pow_pos_nonneg; lia).
  assert (He : e <= 52).
  { assert (Hlt : 2 ^ e < 2 ^ 53) by nia.
    apply Z.pow_lt_mono_r_iff in Hlt; lia. }
  assert (H53 : 2 ^ 53 = 2 * (2 ^ e * 2 ^ (52 - e))).
  { rewrite <- Z.pow_add_r by lia. replace (e + (52 - e)) with 52 by lia.
    reflexivity. }
  assert (HT : 0 < 2 ^ (52 - e)) by (apply Z.pow_pos_nonneg; lia).
  split; [lia |]. split; [nia |].
  unfold true_divide.
  destruct (Z.eqb_spec b 0) as [? | _]; [lia |].
  destruct (Z.eqb_spec a 0) as [? | _]; [lia |].
  rewrite (Z.abs_eq b) by lia. fold e.
  rewrite (Z.max_l (e - 52) (-1074)) by lia.
  rewrite (Z.max_r 0 (- (e - 52))) by lia.
  rewrite (Z.max_l 0 (e - 52)) by lia.
  rewrite Z.pow_0_r, Z.mul_1_r.
  replace (- (e - 52)) with (52 - e) by lia.
  set (m := round_half_even (Z.abs a * 2 ^ (52 - e)) b).
  assert (Hm : m < 2 ^ 1024).
  { pose proof (round_half_even_error (Z.abs a * 2 ^ (52 - e)) b Hb) as Herr.
    fold m in Herr.
    assert (H52 : 2 ^ (52 - e) <= 2 ^ 52) by (apply Z.pow_le_mono_r; lia).
    assert (m <= 2 ^ 53 * 2 ^ 52 + 1) by nia.
    assert (2 ^ 53 * 2 ^ 52 + 1 < 2 ^ 1024) by (vm_compute; reflexivity).
    lia. }
  assert (Hno : (0 <=? e - 52) && (2 ^ 1024 <=? m * 2 ^ (e - 52)) = false).
  { destruct (Z.leb_spec 0 (e - 52)) as [Hs | Hs]; [| reflexivity].
    replace (e - 52) with 0 by lia. rewrite Z.pow_0_r, Z.mul_1_r.
    destruct (Z.leb_spec (2 ^ 1024) m); [lia | reflexivity]. }
  rewrite Hno. rewrite (Z.sgn_pos b) by lia. now rewrite Z.mul_1_r.
Qed.

Lemma py_round_scaled (m e : Z) :
  0 <= e <= 52 ->
  py_round (mkFloat m (e - 52)) = round_half_even m (2 ^ (52 - e)).
Proof.
  intros He. unfold py_round. cbn [mant expo].
  rewrite (Z.max_l 0 (e - 52)) by lia.
  rewrite (Z.max_r 0 (- (e - 52))) by lia.
  rewrite Z.pow_0_r, Z.mul_1_r. f_equal. f_equal. lia.
Qed.

(** Below [2 ^ 53] the quotient by an even [d] (or by 1) rounds as the
    exact quotient does: no [OverflowError], no double-rounding slip. *)
Lemma round_true_divide (n d : Z) :
  0 < d <= n -> n < 2 ^ 53 ->
  d = 1 \/ Z.even d = true ->
  option_map py_round (true_divide n d) = Some (round_half_even n d).
Proof.
  intros [Hd Hdn] Hn Hshape.
  destruct (true_divide_normal n d) as (He & Hdt & ->); [lia | lia |].
  cbn [option_map]. f_equal.
  rewrite py_round_scaled by exact He.
  rewrite (Z.abs_eq n), (Z.sgn_pos n), Z.mul_1_l by lia.
  rewrite (Z.abs_eq n) in He, Hdt by lia.
  apply round_twice; solve [lia | exact Hshape].
Qed.

(** An integer of at most 53 bits survives [round(n / 1)]. *)
Lemma round_true_divide_one (n : Z) :
  Z.abs n < 2 ^ 53 ->
  option_map py_round (true_divide n 1) = Some n.
Proof.
  intros Hn.
  destruct (Z.eq_dec n 0) as [-> | Hnz]; [reflexivity |].
  destruct (true_divide_normal n 1) as (He & _ & ->); [lia | lia |].
  cbn [option_map]. f_equal.
  rewrite py_round_scaled by exact He.
  set (T := 2 ^ (52 - ilog2_ratio (Z.abs n) 1)).
  assert (HT : 0 < T) by (apply Z.pow_pos_nonneg; lia).
  pose proof (round_half_even_multiple (Z.abs n * T) 1 ltac:(lia)) as H1.
  rewrite Z.mul_1_r in H1. rewrite H1.
  replace (Z.sgn n * (Z.abs n * T)) with (n * T)
    by (pose proof (Z.abs_sgn n); nia).
  apply round_half_even_multiple. exact HT.
Qed.

End TrueDivide.

(** ** [Size.human] and [Count.human] *)

Section Formatters.

Lemma human_value (n d v : Z) (suffix : string) :
  option_map py_round (true_divide n d) = Some v ->
  match true_divide n d with
  | Some q => Some (str_int (py_round q) ++ suffix)%string
  | None => None
  end = Some (str_int v ++ suffix)%string.
Proof.
  destruct (true_divide n d) as [q |]; cbn [option_map]; intros H;
    [injection H as -> | discriminate]; reflexivity.
Qed.

Lemma Size_human_exact (n : Z) :
  0 <= n < 2 ^ 53 -> Size.human (Size.mk n) = Some (formatSize_spec n).
Proof.
  intros Hn. unfold Size.human, Size.unit_of, formatSize_spec, format_with.
  cbn [Size.bytes find fst].
  destruct (Z.leb_spec (1024 ^ 4) n);
    [| destruct (Z.leb_spec (1024 ^ 3) n);
       [| destruct (Z.leb_spec (1024 ^ 2) n);
          [| destruct (Z.leb_spec (1024 ^ 1) n)]]].
  1-4: apply (human_value n _ _ (" " ++ _)); apply round_true_divide;
       [lia | lia | right; reflexivity].
  apply (human_value n _ n (" " ++ _)).
  apply round_true_divide_one. lia.
Qed.

Lemma Count_human_exact (n : Z) :
  0 <= n < 2 ^ 53 -> Count.human (Count.mk n) = Some (formatCount_spec n).
Proof.
  intros Hn. unfold Count.human, Count.unit_of, formatCount_spec, format_with.
  cbn [Count.count find fst].
  destruct (Z.leb_spec (1000 ^ 3) n);
    [| destruct (Z.leb_spec (1000 ^ 2) n);
       [| destruct (Z.leb_spec (1000 ^ 1) n)]].
  1-3: apply human_value; apply round_true_divide;
       [lia | lia | right; reflexivity].
  apply (human_value n _ n). apply round_true_divide_one. lia.
Qed.

Lemma Count_human_raw (n : Z) :
  - 2 ^ 53 <= n < 1000 ->
  Count.human (Count.mk n) = Some (str_int n ++ " rows")%string.
Proof.
  intros Hn. unfold Count.human, Count.unit_of. cbn [Count.count].
  destruct (Z.leb_spec (1000 ^ 3) n); [lia |].
  destruct (Z.leb_spec (1000 ^ 2) n); [lia |].
  destruct (Z.leb_spec (1000 ^ 1) n); [lia |].
  destruct (Z.eq_dec n (- 2 ^ 53)) as [-> | Hne].
  - vm_compute. reflexivity.
  - apply (human_value n _ n). apply round_true_divide_one. lia.
Qed.

End Formatters.

(** C2 (as amended): for every byte count [n] with [0 <= n < 2 ^ 53] the
    size formatter picks the first of the thresholds [1024 ^ 4],
    [1024 ^ 3], [1024 ^ 2], [1024 ^ 1] that [n] meets or exceeds (else the
    raw bytes), divides, rounds to the nearest integer with ties to even
    and prints the integer, a space and the unit; and the three named
    values are [0 bytes], [2 KiB] and [1 GiB]. *)
Theorem Size_human_rounds_below_2_53 (n : Z) :
  0 <= n < 2 ^ 53 ->
  Size.human (Size.mk n) = Some (formatSize_spec n) /\
  Size.human (Size.mk 0) = Some "0 bytes" /\
  Size.human (Size.mk 1536) = Some "2 KiB" /\
  Size.human (Size.mk (1024 ^ 3)) = Some "1 GiB".
Proof.
  intros Hn. split; [exact (Size_human_exact n Hn) |].
  repeat split; vm_compute; reflexivity.
Qed.

Lemma Size_human_rounds_below_2_53_witness :
  Size.human (Size.mk 2560) = Some (formatSize_spec 2560) /\
  Size.human (Size.mk 0) = Some "0 bytes" /\
  Size.human (Size.mk 1536) = Some "2 KiB" /\
  Size.human (Size.mk (1024 ^ 3)) = Some "1 GiB".
Proof.
  apply (Size_human_rounds_below_2_53 2560). lia.
Defined.

(** C2 (as stated) fails: at [2 ^ 53 + 2 ^ 39 + 1] bytes the quotient
    [8192.5 + 2 ^ -40] is first rounded to the float [8192.5] and then to
    [8192], while the nearest integer is [8193]; and a quotient beyond the
    float range raises instead of returning. *)
Lemma Size_human_double_rounding :
  0 <= 2 ^ 53 + 2 ^ 39 + 1 /\
  Size.human (Size.mk (2 ^ 53 + 2 ^ 39 + 1)) = Some "8192 TiB" /\
  formatSize_spec (2 ^ 53 + 2 ^ 39 + 1) = "8193 TiB" /\
  Size.human (Size.mk (2 ^ 1024 * 1024 ^ 4)) = None.
Proof.
  repeat split; solve [lia | vm_compute; reflexivity | discriminate].
Qed.

(** C3 (as amended): for every count [n] with [0 <= n < 2 ^ 53] the
    row-count formatter uses the thresholds [1000 ^ 3] (suffix
    [kkk rows]), [1000 ^ 2] ([kk rows]) and [1000 ^ 1] ([k rows]), else
    the raw value with the suffix [ rows]; the suffix depends on the
    threshold only; and the three named values are [500 rows], [2k rows]
    and [1kk rows]. *)
Theorem Count_human_thresholds_below_2_53 (n : Z) :
  0 <= n < 2 ^ 53 ->
  Count.human (Count.mk n) = Some (formatCount_spec n) /\
  Count.human (Count.mk 1) = Some "1 rows" /\
  Count.human (Count.mk 500) = Some "500 rows" /\
  Count.human (Count.mk 1500) = Some "2k rows" /\
  Count.human (Count.mk 1000000) = Some "1kk rows".
Proof.
  intros Hn. split; [exact (Count_human_exact n Hn) |].
  repeat split; vm_compute; reflexivity.
Qed.

Lemma Count_human_thresholds_below_2_53_witness :
  Count.human (Count.mk 2500) = Some (formatCount_spec 2500) /\
  Count.human (Count.mk 1) = Some "1 rows" /\
  Count.human (Count.mk 500) = Some "500 rows" /\
  Count.human (Count.mk 1500) = Some "2k rows" /\
  Count.human (Count.mk 1000000) = Some "1kk rows".
Proof.
  apply (Count_human_thresholds_below_2_53 2500). lia.
Defined.

(** C3 (as stated) fails: at [16777216500000001] rows the quotient
    [16777216.500000001] becomes the float [16777216.5] and then
    [16777216], not [16777217]; and a quotient beyond the float range
    raises instead of returning. *)
Lemma Count_human_double_rounding :
  0 <= 16777216500000001 /\
  Count.human (Count.mk 16777216500000001) = Some "16777216kkk rows" /\
  formatCount_spec 16777216500000001 = "16777217kkk rows" /\
  Count.human (Count.mk (2 ^ 1024 * 1000 ^ 3)) = None.
Proof.
  repeat split; solve [lia | vm_compute; reflexivity | discriminate].
Qed.

(** The value printed inside a unit: the largest threshold the input
    reaches selects the unit, and the quotient is rounded afterwards. *)
Lemma Size_human_in_unit (n unit : Z) (suffix : string) :
  In (unit, suffix)
     [(1024 ^ 1, " KiB"); (1024 ^ 2, " MiB"); (1024 ^ 3, " GiB")]%string ->
  unit <= n < 1024 * unit ->
  Size.human (Size.mk n)
  = Some (str_int (round_half_even n unit) ++ suffix)%string.
Proof.
  intros Hin Hn.
  assert (Hrange : 0 <= n < 2 ^ 53).
  { cbn [In] in Hin.
    destruct Hin as [H | [H | [H | []]]]; injection H as <- <-; lia. }
  rewrite Size_human_exact by exact Hrange.
  unfold formatSize_spec, format_with. cbn [find fst].
  cbn [In] in Hin.
  destruct Hin as [H | [H | [H | []]]]; injection H as <- <-.
  - destruct (Z.leb_spec (1024 ^ 4) n); [lia |].
    destruct (Z.leb_spec (1024 ^ 3) n); [lia |].
    destruct (Z.leb_spec (1024 ^ 2) n); [lia |].
    destruct (Z.leb_spec (1024 ^ 1) n); [reflexivity | lia].
  - destruct (Z.leb_spec (1024 ^ 4) n); [lia |].
    destruct (Z.leb_spec (1024 ^ 3) n); [lia |].
    destruct (Z.leb_spec (1024 ^ 2) n); [reflexivity | lia].
  - destruct (Z.leb_spec (1024 ^ 4) n); [lia |].
    destruct (Z.leb_spec (1024 ^ 3) n); [reflexivity | lia].
Qed.

Lemma Count_human_in_unit (n unit : Z) (suffix : string) :
  In (unit, suffix) [(1000 ^ 1, "k rows"); (1000 ^ 2, "kk rows")]%string ->
  unit <= n < 1000 * unit ->
  Count.human (Count.mk n)
  = Some (str_int (round_half_even n unit) ++ suffix)%string.
Proof.
  intros Hin Hn.
  assert (Hrange : 0 <= n < 2 ^ 53).
  { cbn [In] in Hin.
    destruct Hin as [H | [H | []]]; injection H as <- <-; lia. }
  rewrite Count_human_exact by exact Hrange.
  unfold formatCount_spec, format_with. cbn [find fst].
  cbn [In] in Hin.
  destruct Hin as [H | [H | []]]; injection H as <- <-.
  - destruct (Z.leb_spec (1000 ^ 3) n); [lia |].
    destruct (Z.leb_spec (1000 ^ 2) n); [lia |].
    destruct (Z.leb_spec (1000 ^ 1) n); [reflexivity | lia].
  - destruct (Z.leb_spec (1000 ^ 3) n); [lia |].
    destruct (Z.leb_spec (1000 ^ 2) n); [reflexivity | lia].
Qed.

(** Below [k] units, with [k] even, the rounded quotient is [k] exactly
    from half a unit below [k] units on, the half included. *)
Lemma round_half_even_top (n d k : Z) :
  0 < d -> Z.even k = true -> n < k * d ->
  (round_half_even n d = k <-> (2 * k - 1) * d <= 2 * n).
Proof.
  intros Hd Hk Hn. split.
  - intros Hv. pose proof (round_half_even_error n d Hd) as Herr.
    rewrite Hv in Herr. nia.
  - intros Hlo.
    destruct (Z.eq_dec (2 * n) ((2 * k - 1) * d)) as [Htie | Hne].
    + destruct (Z.Even_or_Odd d) as [[h Hh] | [h Hh]]; [| exfalso; nia].
      subst d. replace n with ((k - 1) * (2 * h) + h) by nia.
      rewrite round_half_even_tie by lia.
      rewrite Z.even_sub, Hk. cbn. lia.
    + apply round_half_even_near; [exact Hd | nia].
Qed.

(** C9: rounding comes after the choice of the unit.  The unit is chosen
    by comparing the input itself with the thresholds, so an input below a
    threshold keeps the smaller unit however close it is: every input
    from half a unit below a threshold up to the threshold prints as the
    full quantity [1024] (or [1000]) of the smaller unit, at each of the
    three size thresholds and each of the two count thresholds with a
    rounded quotient, and never as [1] of the larger unit; the larger unit
    and the value [1] come at the threshold itself.  Below the first
    threshold the input is printed as it is. *)
Theorem human_rounds_after_unit_selection (n : Z) :
  (1024 ^ 2 - 1024 ^ 1 / 2 <= n < 1024 ^ 2 ->
   Size.human (Size.mk n) = Some "1024 KiB"
   /\ Size.human (Size.mk n) <> Some "1 MiB") /\
  (1024 ^ 3 - 1024 ^ 2 / 2 <= n < 1024 ^ 3 ->
   Size.human (Size.mk n) = Some "1024 MiB"
   /\ Size.human (Size.mk n) <> Some "1 GiB") /\
  (1024 ^ 4 - 1024 ^ 3 / 2 <= n < 1024 ^ 4 ->
   Size.human (Size.mk n) = Some "1024 GiB"
   /\ Size.human (Size.mk n) <> Some "1 TiB") /\
  (1000 ^ 2 - 1000 ^ 1 / 2 <= n < 1000 ^ 2 ->
   Count.human (Count.mk n) = Some "1000k rows"
   /\ Count.human (Count.mk n) <> Some "1kk rows") /\
  (1000 ^ 3 - 1000 ^ 2 / 2 <= n < 1000 ^ 3 ->
   Count.human (Count.mk n) = Some "1000kk rows"
   /\ Count.human (Count.mk n) <> Some "1kkk rows") /\
  map (fun t => Size.human (Size.mk t))
      [1024 ^ 1 - 1; 1024 ^ 1; 1024 ^ 2; 1024 ^ 3; 1024 ^ 4]
  = [Some "1023 bytes"; Some "1 KiB"; Some "1 MiB"; Some "1 GiB";
     Some "1 TiB"] /\
  map (fun t => Count.human (Count.mk t))
      [1000 ^ 1 - 1; 1000 ^ 1; 1000 ^ 2; 1000 ^ 3]
  = [Some "999 rows"; Some "1k rows"; Some "1kk rows"; Some "1kkk rows"].
Proof.
  assert (Hsize :
    forall unit suffix,
      In (unit, suffix)
         [(1024 ^ 1, " KiB"); (1024 ^ 2, " MiB"); (1024 ^ 3, " GiB")]%string ->
      0 < unit ->
      1024 * unit - unit / 2 <= n < 1024 * unit ->
      Size.human (Size.mk n) = Some (str_int 1024 ++ suffix)%string).
  { intros unit suffix Hin Hu Hn.
    assert (Hhalf : 2 * (unit / 2) = unit).
    { cbn [In] in Hin.
      destruct Hin as [H | [H | [H | []]]]; injection H as <- _;
        reflexivity. }
    rewrite (Size_human_in_unit n unit suffix Hin) by lia.
    rewrite (proj2 (round_half_even_top n unit 1024 Hu eq_refl
                      ltac:(lia))); [reflexivity | lia]. }
  assert (Hcount :
    forall unit suffix,
      In (unit, suffix) [(1000 ^ 1, "k rows"); (1000 ^ 2, "kk rows")]%string ->
      0 < unit ->
      1000 * unit - unit / 2 <= n < 1000 * unit ->
      Count.human (Count.mk n) = Some (str_int 1000 ++ suffix)%string).
  { intros unit suffix Hin Hu Hn.
    assert (Hhalf : 2 * (unit / 2) = unit).
    { cbn [In] in Hin.
      destruct Hin as [H | [H | []]]; injection H as <- _; reflexivity. }
    rewrite (Count_human_in_unit n unit suffix Hin) by lia.
    rewrite (proj2 (round_half_even_top n unit 1000 Hu eq_refl
                      ltac:(lia))); [reflexivity | lia]. }
  assert (H1 : 1024 ^ 1 / 2 = 512) by reflexivity.
  assert (H2 : 1024 ^ 2 / 2 = 524288) by reflexivity.
  assert (H3 : 1024 ^ 3 / 2 = 536870912) by reflexivity.
  assert (H4 : 1000 ^ 1 / 2 = 500) by reflexivity.
  assert (H5 : 1000 ^ 2 / 2 = 500000) by reflexivity.
  split; [| split; [| split; [| split; [| split; [| split]]]]].
  - intros Hn.
    rewrite (Hsize (1024 ^ 1) " KiB"%string);
      [split; [reflexivity | discriminate] | cbn [In]; auto | lia | lia].
  - intros Hn.
    rewrite (Hsize (1024 ^ 2) " MiB"%string);
      [split; [reflexivity | discriminate] | cbn [In]; auto | lia | lia].
  - intros Hn.
    rewrite (Hsize (1024 ^ 3) " GiB"%string);
      [split; [reflexivity | discriminate] | cbn [In]; auto | lia | lia].
  - intros Hn.
    rewrite (Hcount (1000 ^ 1) "k rows"%string);
      [split; [reflexivity | discriminate] | cbn [In]; auto | lia | lia].
  - intros Hn.
    rewrite (Hcount (1000 ^ 2) "kk rows"%string);
      [split; [reflexivity | discriminate] | cbn [In]; auto | lia | lia].
  - vm_compute. reflexivity.
  - vm_compute. reflexivity.
Qed.

Lemma human_rounds_after_unit_selection_witness :
  (Size.human (Size.mk (1024 ^ 2 - 1)) = Some "1024 KiB"
   /\ Size.human (Size.mk (1024 ^ 2 - 1)) <> Some "1 MiB") /\
  (Size.human (Size.mk (1024 ^ 3 - 1)) = Some "1024 MiB"
   /\ Size.human (Size.mk (1024 ^ 3 - 1)) <> Some "1 GiB") /\
  (Count.human (Count.mk (1000 ^ 2 - 1)) = Some "1000k rows"
   /\ Count.human (Count.mk (1000 ^ 2 - 1)) <> Some "1kk rows").
Proof.
  split; [| split].
  - apply (proj1 (human_rounds_after_unit_selection (1024 ^ 2 - 1))).
    simpl; lia.
  - apply (proj1 (proj2 (human_rounds_after_unit_selection (1024 ^ 3 - 1)))).
    simpl; lia.
  - apply (proj1 (proj2 (proj2 (proj2
             (human_rounds_after_unit_selection (1000 ^ 2 - 1)))))).
    simpl; lia.
Defined.

(** C10 (as amended): for every [n] with [- 2 ^ 53 <= n < 1000], negative
    values included, the row-count formatter returns the decimal digits of
    [n] followed by [ rows]; an estimate of [-1] renders as [-1 rows]. *)
Theorem Count_human_small_or_negative (n : Z) :
  - 2 ^ 53 <= n < 1000 ->
  Count.human (Count.mk n) = Some (str_int n ++ " rows")%string /\
  Count.human (Count.mk (-1)) = Some "-1 rows".
Proof.
  intros Hn. split; [exact (Count_human_raw n Hn) |].
  vm_compute; reflexivity.
Qed.

Lemma Count_human_small_or_negative_witness :
  Count.human (Count.mk (-42)) = Some (str_int (-42) ++ " rows")%string /\
  Count.human (Count.mk (-1)) = Some "-1 rows".
Proof.
  apply (Count_human_small_or_negative (-42)). lia.
Defined.

(** C10 (as stated) fails: [- 2 ^ 53 - 1] is below 1000 and renders with
    other digits than its own, and [- 2 ^ 1024] makes the division raise:
    the formatter is not total on the integers. *)
Lemma Count_human_not_total :
  - 2 ^ 53 - 1 < 1000 /\
  Count.human (Count.mk (- 2 ^ 53 - 1)) = Some "-9007199254740992 rows" /\
  (str_int (- 2 ^ 53 - 1) ++ " rows")%string = "-9007199254740993 rows" /\
  - 2 ^ 1024 < 1000 /\
  Count.human (Count.mk (- 2 ^ 1024)) = None.
Proof.
  repeat split; solve [lia | vm_compute; reflexivity].
Qed.

(** ** [fetch_fields] *)

Section FetchFields.

Lemma append_loop {A B} (f : A -> B) (xs : list A) (acc : list B) :
  fold_left (fun ys x => ys ++ [f x]) xs acc = acc ++ map f xs.
Proof.
  revert acc. induction xs as [| x xs IH]; intros acc; cbn [fold_left map].
  - now rewrite app_nil_r.
  - rewrite IH, <- app_assoc. reflexivity.
Qed.

Lemma row_of_table_exact (schema_name table_name : string) (row : ColumnRow) :
  row_of_table schema_name table_name row
  = same_table schema_name table_name row.
Proof.
  unfold row_of_table, same_table. cbn [forallb].
  destruct (String.eqb_spec (col_schema_name row) schema_name) as [Hs | Hs];
    destruct (string_dec (col_schema_name row) schema_name) as [Hs' | Hs'];
    try contradiction; cbn [andb]; [| reflexivity].
  destruct (String.eqb_spec (col_table_name row) table_name) as [Ht | Ht];
    destruct (string_dec (col_table_name row) table_name) as [Ht' | Ht'];
    try contradiction; reflexivity.
Qed.

Lemma same_table_iff (schema table : string) (row : ColumnRow) :
  same_table schema table row = true
  <-> col_schema_name row = schema /\ col_table_name row = table.
Proof.
  unfold same_table.
  destruct (string_dec (col_schema_name row) schema);
    destruct (string_dec (col_table_name row) table);
    split; intros H; try discriminate; tauto.
Qed.

End FetchFields.

(** C6: for every list of column rows and every schema/table pair,
    [fetch_fields] returns the rows whose schema and table are equal to
    the pair as strings (so case matters), in the order of the input, each
    one turned into a [Field] without description. *)
Theorem fetch_fields_filters_in_order
    (rows : list ColumnRow) (schema table : string) :
  fetch_fields rows schema table = assembleFields_spec rows schema table /\
  (forall row, In row (filter (same_table schema table) rows)
               <-> In row rows /\ col_schema_name row = schema
                   /\ col_table_name row = table) /\
  Forall (fun field => Field.description field = None)
         (fetch_fields rows schema table) /\
  fetch_fields Examples.users_columns "public" "users"
  = [Field.mk "id" None "integer" None false;
     Field.mk "email" None "text" None true].
Proof.
  assert (Heq : fetch_fields rows schema table
                = assembleFields_spec rows schema table).
  { unfold fetch_fields, assembleFields_spec.
    rewrite append_loop. cbn [app]. f_equal.
    apply filter_ext. intros row. apply row_of_table_exact. }
  split; [exact Heq |]. split; [| split].
  - intros row. rewrite filter_In, same_table_iff. tauto.
  - rewrite Heq. unfold assembleFields_spec.
    apply Forall_forall. intros field Hin.
    apply in_map_iff in Hin. destruct Hin as (row & <- & _). reflexivity.
  - vm_compute. reflexivity.
Qed.

(** ** Texts *)

Section Texts.

Local Open Scope string_scope.

Lemma append_assoc_s (a b c : string) : (a ++ b) ++ c = a ++ (b ++ c).
Proof.
  induction a as [| x a IH]; cbn [append]; [reflexivity | now rewrite IH].
Qed.

Lemma append_empty_r (a : string) : a ++ EmptyString = a.
Proof.
  induction a as [| x a IH]; cbn [append]; [reflexivity | now rewrite IH].
Qed.

Lemma prefix_append (pat rest : string) : String.prefix pat (pat ++ rest) = true.
Proof.
  induction pat as [| x pat IH]; cbn [append].
  - destruct rest; reflexivity.
  - cbn [String.prefix]. destruct (ascii_dec x x); [exact IH | contradiction].
Qed.

Lemma prefix_empty (pat : string) :
  String.prefix pat EmptyString = true -> pat = EmptyString.
Proof.
  destruct pat; [reflexivity | discriminate].
Qed.

Lemma contains_step (pat : string) (c : ascii) (s : string) :
  contains pat s = true -> contains pat (String c s) = true.
Proof.
  intros H. cbn [contains].
  destruct (String.prefix pat (String c s)); [reflexivity | exact H].
Qed.

(** A text that holds [pat] between two others contains it. *)
Lemma contains_middle (pat before after : string) :
  contains pat (before ++ pat ++ after) = true.
Proof.
  induction before as [| c before IH]; cbn [append].
  - destruct (pat ++ after) eqn:E; cbn [contains];
      rewrite <- E, prefix_append; reflexivity.
  - apply contains_step. exact IH.
Qed.

(** A match that starts before a character foreign to [pat] ends before
    it. *)
Lemma prefix_stops (pat x y : string) (c : ascii) :
  has_char c pat = false ->
  String.prefix pat (x ++ String c y) = true -> String.prefix pat x = true.
Proof.
  revert x. induction pat as [| p pat IH]; intros x Hc H.
  - destruct x; reflexivity.
  - cbn [has_char] in Hc. apply orb_false_iff in Hc. destruct Hc as [Hp Hc].
    destruct x as [| a x]; cbn [append String.prefix] in *.
    + destruct (ascii_dec p c) as [-> | _]; [| discriminate].
      now rewrite Ascii.eqb_refl in Hp.
    + destruct (ascii_dec p a); [apply IH; assumption | discriminate].
Qed.

Lemma contains_skip (pat x y : string) (c : ascii) :
  has_char c pat = false ->
  contains pat (x ++ String c y) = true ->
  contains pat x = true \/ contains pat y = true.
Proof.
  intros Hc. induction x as [| a x IH]; cbn [append]; intros H.
  - cbn [contains] in H.
    destruct (String.prefix pat (String c y)) eqn:Hp.
    + left. apply (prefix_stops pat EmptyString y c Hc) in Hp.
      cbn [contains]. now rewrite Hp.
    + now right.
  - cbn [contains] in H.
    destruct (String.prefix pat (String a (x ++ String c y))) eqn:Hp.
    + left. apply (prefix_stops pat (String a x) y c Hc) in Hp.
      cbn [contains]. now rewrite Hp.
    + destruct (IH H) as [Hx | Hy]; [left | now right].
      now apply contains_step.
Qed.

Lemma contains_empty (pat : string) :
  contains pat EmptyString = true -> pat = EmptyString.
Proof.
  cbn [contains]. destruct (String.prefix pat EmptyString) eqn:Hp;
    [intros _; now apply prefix_empty | discriminate].
Qed.

(** Leading characters foreign to [pat] play no part in a match. *)
Lemma contains_after_foreign (pat s y : string) :
  pat <> EmptyString -> foreign pat s = true ->
  contains pat (s ++ y) = true -> contains pat y = true.
Proof.
  intros Hpat. induction s as [| c s IH]; cbn [append foreign]; intros Hf H.
  - exact H.
  - apply andb_true_iff in Hf. destruct Hf as [Hc Hf].
    apply negb_true_iff in Hc.
    destruct (contains_skip pat EmptyString (s ++ y) c Hc H) as [He | Hy].
    + apply contains_empty in He. contradiction.
    + now apply IH.
Qed.

Lemma foreign_append (pat a b : string) :
  foreign pat (a ++ b) = foreign pat a && foreign pat b.
Proof.
  induction a as [| c a IH]; cbn [append foreign];
    [reflexivity | now rewrite IH, andb_assoc].
Qed.

Lemma foreign_indent (ident : nat) : foreign nullable_marker (indent ident) = true.
Proof.
  induction ident as [| n IH]; [reflexivity |].
  cbn [indent]. rewrite foreign_append, IH. reflexivity.
Qed.

End Texts.

(** ** [Field.display] *)

Section FieldDisplay.

Local Open Scope string_scope.

(** The line, cut at the escape character that follows the name. *)
Lemma Field_line_parts (self : Field.t) (ident : nat) :
  Field_line self ident
  = (indent ident ++ bullet ++ F.GREEN)
    ++ Field.name self
    ++ String (ascii_of_nat 27)
         ("[39m | " ++ Field.type self
          ++ (if Field.nullable self
              then " " ++ F.RED ++ nullable_marker ++ F.RESET
              else EmptyString)).
Proof.
  unfold Field_line. rewrite !append_assoc_s. reflexivity.
Qed.

Lemma Field_line_nullable (self : Field.t) (ident : nat) :
  Field.nullable self = true ->
  contains nullable_marker (Field_line self ident) = true.
Proof.
  intros Hn. rewrite Field_line_parts, Hn.
  set (before := (indent ident ++ bullet ++ F.GREEN) ++ Field.name self
                 ++ String (ascii_of_nat 27)
                      ("[39m | " ++ Field.type self ++ " " ++ F.RED)).
  replace (_ ++ _ ++ String _ _)
    with (before ++ nullable_marker ++ F.RESET).
  - apply contains_middle.
  - unfold before. rewrite !append_assoc_s. cbn [append].
    rewrite !append_assoc_s. reflexivity.
Qed.

Lemma Field_line_not_nullable (self : Field.t) (ident : nat) :
  Field.nullable self = false ->
  contains nullable_marker (Field_line self ident) = true ->
  contains nullable_marker (Field.name self) = true
  \/ contains nullable_marker (Field.type self) = true.
Proof.
  intros Hn H. rewrite Field_line_parts, Hn, append_empty_r in H.
  apply contains_after_foreign in H; [| discriminate |].
  - apply contains_skip in H; [| reflexivity].
    destruct H as [Hname | Hrest]; [now left | right].
    apply contains_after_foreign in Hrest;
      [exact Hrest | discriminate | reflexivity].
  - rewrite foreign_append, foreign_indent. reflexivity.
Qed.

End FieldDisplay.

(** C8 (as amended): [Field.display] prints the indentation, the name and
    the type, followed by the marker exactly when the nullable flag is
    set.  So the line of a nullable field contains [(nullable)]; and when
    neither the name nor the type of the field contains [(nullable)]
    itself, the line contains it if and only if the flag is set. *)
Theorem Field_display_marks_nullable (self : Field.t) (ident : nat) :
  (forall st, Field_display self ident st
              = (inr tt, mkState (next_id st) (opened st) (log st)
                                 (stdout st ++ [Field_line self ident]))) /\
  (Field.nullable self = true ->
   contains nullable_marker (Field_line self ident) = true) /\
  (contains nullable_marker (Field.name self) = false ->
   contains nullable_marker (Field.type self) = false ->
   (contains nullable_marker (Field_line self ident) = true
    <-> Field.nullable self = true)).
Proof.
  split; [reflexivity |]. split; [apply Field_line_nullable |].
  intros Hname Htype. split.
  - intros H. destruct (Field.nullable self) eqn:Hn; [reflexivity |].
    destruct (Field_line_not_nullable self ident Hn H) as [C | C];
      congruence.
  - apply Field_line_nullable.
Qed.

Lemma Field_display_marks_nullable_witness :
  contains nullable_marker
    (Field_line (Field.mk "email" None "text" None true) 2) = true /\
  contains nullable_marker
    (Field_line (Field.mk "id" None "integer" None false) 2) = false.
Proof.
  destruct (Field_display_marks_nullable
              (Field.mk "email" None "text" None true) 2) as (_ & Hyes & _).
  destruct (Field_display_marks_nullable
              (Field.mk "id" None "integer" None false) 2) as (_ & _ & Hno).
  split; [apply Hyes; reflexivity |].
  specialize (Hno eq_refl eq_refl).
  destruct (contains nullable_marker
              (Field_line (Field.mk "id" None "integer" None false) 2));
    [| reflexivity].
  destruct Hno as [Hno _]. discriminate (Hno eq_refl).
Defined.

(** C8 (as stated) fails: a field that is not nullable and whose name is
    the text [(nullable)] renders with that text in its line. *)
Lemma Field_display_marker_in_name :
  Field.nullable (Field.mk "(nullable)" None "integer" None false) = false /\
  contains "(nullable)"
    (Field_line (Field.mk "(nullable)" None "integer" None false) 0) = true.
Proof.
  split; vm_compute; reflexivity.
Qed.

(** ** The monad *)

Section Monad.

Lemma bind_inr {A B} (m : M A) (k : A -> M B) (st st' : state) (a : A) :
  m st = (inr a, st') -> bind m k st = k a st'.
Proof. intros H. unfold bind. now rewrite H. Qed.

Lemma bind_inl {A B} (m : M A) (k : A -> M B) (st st' : state) (e : exn) :
  m st = (inl e, st') -> bind m k st = (inl e, st').
Proof. intros H. unfold bind. now rewrite H. Qed.

Lemma bind_ret_tt (m : M unit) (st : state) :
  bind m (fun _ => ret tt) st = m st.
Proof.
  unfold bind, ret. destruct (m st) as [[e | []] st']; reflexivity.
Qed.

Lemma prints_only_ret {A} (a : A) : prints_only (ret a).
Proof. intros st. cbn. auto. Qed.

Lemma prints_only_raise {A} (e : exn) : prints_only (@raise A e).
Proof. intros st. cbn. auto. Qed.

Lemma prints_only_print (line : string) : prints_only (print line).
Proof. intros st. cbn. auto. Qed.

Lemma prints_only_bind {A B} (m : M A) (k : A -> M B) :
  prints_only m -> (forall a, prints_only (k a)) -> prints_only (bind m k).
Proof.
  intros Hm Hk st. unfold bind. specialize (Hm st).
  destruct (m st) as [[e | a] st1]; cbn [snd] in *; [exact Hm |].
  destruct Hm as (H1 & H2 & H3). destruct (Hk a st1) as (K1 & K2 & K3).
  rewrite K1, K2, K3. auto.
Qed.

Lemma prints_only_for_each {A} (xs : list A) (body : A -> M unit) :
  (forall x, prints_only (body x)) -> prints_only (for_each xs body).
Proof.
  intros Hb. induction xs as [| x xs IH]; cbn [for_each].
  - apply prints_only_ret.
  - apply prints_only_bind; [apply Hb | intros _; exact IH].
Qed.

Lemma prints_only_or_overflow (r : option string) :
  prints_only (or_overflow r).
Proof.
  destruct r; [apply prints_only_ret | apply prints_only_raise].
Qed.

Lemma prints_only_description (description : option string) (ident : nat) :
  prints_only (display_description description ident).
Proof.
  unfold display_description. destruct (truthy description).
  - apply prints_only_bind; [apply prints_only_print |].
    intros _. apply prints_only_print.
  - apply prints_only_ret.
Qed.

Lemma prints_only_Table (self : Table.t) (ident : nat) :
  prints_only (Table_display self ident).
Proof.
  unfold Table_display.
  apply prints_only_bind; [apply prints_only_or_overflow | intros size].
  apply prints_only_bind; [apply prints_only_or_overflow | intros rows].
  apply prints_only_bind; [apply prints_only_print | intros _].
  apply prints_only_bind; [apply prints_only_description | intros _].
  apply prints_only_for_each. intros field. apply prints_only_print.
Qed.

Lemma prints_only_Database (self : Database.t) (ident : nat) :
  prints_only (Database_display self ident).
Proof.
  unfold Database_display.
  apply prints_only_bind; [apply prints_only_or_overflow | intros size].
  apply prints_only_bind; [apply prints_only_print | intros _].
  apply prints_only_bind; [apply prints_only_description | intros _].
  apply prints_only_for_each. intros table. apply prints_only_Table.
Qed.

Lemma Database_display_no_tables (self : Database.t) (ident : nat) :
  Database.tables self = [] ->
  forall st, Database_display self ident st
             = Database_display_alone self ident st.
Proof.
  intros Hno st. unfold Database_display, Database_display_alone.
  rewrite Hno. cbn [for_each]. unfold bind, ret.
  destruct (or_overflow _ st) as [[e | size] st1]; [reflexivity |].
  destruct (print _ st1) as [[e | []] st2]; [reflexivity |].
  destruct (display_description _ ident st2) as [[e | []] st3]; reflexivity.
Qed.

End Monad.

(** ** Runs without table listing *)

Section HiddenTables.

Variable srv : server.

Lemma loop_hidden_step (base_dsn sort : string) (show_fields : bool)
    (consume : Database.t -> M unit) (row : DatabaseRow)
    (rest : list DatabaseRow) (tables : option (list Table.t)) (st : state) :
  fetch_databases_loop srv base_dsn sort false show_fields consume
                       (row :: rest) tables st
  = match consume (Database_of_row row [])
            (mkState (next_id st) (opened st)
                     (log st ++ [Yielded (Database_of_row row [])])
                     (stdout st)) with
    | (inr _, st') =>
        fetch_databases_loop srv base_dsn sort false show_fields consume
                             rest (Some []) st'
    | (inl e, st') => (inl e, st')
    end.
Proof. reflexivity. Qed.

Lemma loop_hidden (base_dsn sort : string) (show_fields : bool)
    (consume : Database.t -> M unit) (data : list DatabaseRow) :
  (forall d, prints_only (consume d)) ->
  forall (tables : option (list Table.t)) (st : state),
  let run := fetch_databases_loop srv base_dsn sort false show_fields
                                  consume data tables st in
  exists evs,
    log (snd run) = log st ++ evs /\
    opened (snd run) = opened st /\
    next_id (snd run) = next_id st /\
    Forall (fun d => Database.tables d = []) (yielded evs) /\
    Forall (no_table_fetch base_dsn) evs /\
    (fst run = inr tt ->
     evs = map (fun row => Yielded (Database_of_row row [])) data).
Proof.
  intros Hc. induction data as [| row rest IH]; intros tables st run.
  - exists []. subst run. cbn. rewrite app_nil_r. repeat split; constructor.
  - subst run. rewrite loop_hidden_step.
    set (d := Database_of_row row []).
    set (st1 := mkState (next_id st) (opened st) (log st ++ [Yielded d])
                        (stdout st)).
    destruct (Hc d st1) as (N & O & L).
    destruct (consume d st1) as [[e | []] st2]; cbn [snd fst] in *.
    + exists [Yielded d]. rewrite L. cbn [st1 log opened next_id] in *.
      repeat split; try assumption.
      * cbn. repeat constructor.
      * repeat constructor.
      * discriminate.
    + destruct (IH (Some []) st2) as (evs & E1 & E2 & E3 & E4 & E5 & E6).
      exists (Yielded d :: evs). rewrite E1, E2, E3, L, O, N.
      cbn [st1 log opened next_id]. rewrite <- app_assoc.
      repeat split; try reflexivity.
      * cbn [yielded]. constructor; [reflexivity | exact E4].
      * constructor; [reflexivity | exact E5].
      * intros Hr. cbn [map]. f_equal. exact (E6 Hr).
Qed.

End HiddenTables.

Section HiddenTablesRun.

Variable srv : server.

Lemma yielded_app (evs evs' : list event) :
  yielded (evs ++ evs') = yielded evs ++ yielded evs'.
Proof.
  induction evs as [| ev evs IH]; [reflexivity |].
  destruct ev; cbn [app yielded]; rewrite IH; reflexivity.
Qed.

Lemma Forall_no_tables (ds : list Database.t) :
  Forall (fun d => Database.tables d = []) ds ->
  Forall (fun d => Database.tables d = [] /\
                   forall st, Database_display d 0 st
                              = Database_display_alone d 0 st) ds.
Proof.
  intros H. eapply Forall_impl; [| exact H].
  intros d Hd. split; [exact Hd |]. now apply Database_display_no_tables.
Qed.

Lemma fetch_databases_run (base_dsn sort : string)
    (show_tables show_fields : bool) (consume : Database.t -> M unit)
    (st : state) :
  fetch_databases srv base_dsn sort show_tables show_fields consume st
  = match database_order sort with
    | None => (inl NotImplementedError, st)
    | Some order =>
        let dsn := (base_dsn ++ "/postgres")%string in
        let c := mkConnection (next_id st) dsn in
        match refuses srv dsn with
        | Some e => (inl e, logged st [ConnectRaised dsn e])
        | None =>
            match database_rows srv dsn order with
            | inl e =>
                (inl e, logged (connected st c)
                               [Connected c;
                                FetchRaised c (SelectDatabases order) e])
            | inr data =>
                match fetch_databases_loop srv base_dsn sort show_tables
                        show_fields consume data None
                        (logged (connected st c)
                                [Connected c;
                                 Fetched c (SelectDatabases order)]) with
                | (inl e, st') => (inl e, st')
                | (inr _, st') => close c st'
                end
            end
        end
    end.
Proof.
  unfold fetch_databases, database_order.
  destruct (String.eqb sort "name");
    [| destruct (String.eqb sort "size"); [| reflexivity]].
  all: unfold bind at 1; cbn [ret]; unfold bind at 1, connect;
    destruct (refuses srv (base_dsn ++ "/postgres")) as [e |];
    [reflexivity |];
    unfold bind at 1, fetch_database_rows, fetch; cbn [conn_dsn];
    match goal with
    | |- context [database_rows srv ?d ?o] =>
        destruct (database_rows srv d o) as [e | data]
    end;
    unfold bind, emit, raise, ret, logged, connected;
    cbn [next_id opened log stdout]; rewrite <- ?app_assoc; reflexivity.
Qed.

Lemma fetch_databases_hidden (base_dsn sort : string) (show_fields : bool)
    (st : state) :
  let run := fetch_databases srv base_dsn sort false show_fields
               (fun database => Database_display database 0) st in
  exists evs,
    log (snd run) = log st ++ evs /\
    Forall (no_table_fetch base_dsn) evs /\
    Forall (fun d => Database.tables d = []) (yielded evs) /\
    (fst run = inr tt ->
     exists c order data,
       database_rows srv (base_dsn ++ "/postgres")%string order = inr data /\
       evs = Connected c :: Fetched c (SelectDatabases order)
             :: map (fun row => Yielded (Database_of_row row [])) data
             ++ [Closed c]).
Proof.
  intros run. subst run. rewrite fetch_databases_run.
  destruct (database_order sort) as [order |].
  2: { exists []. cbn. rewrite app_nil_r.
       repeat split; try constructor. discriminate. }
  cbv zeta.
  destruct (refuses srv (base_dsn ++ "/postgres")) as [e |].
  { exists [ConnectRaised (base_dsn ++ "/postgres") e].
    repeat split; try (repeat constructor). discriminate. }
  set (c := mkConnection (next_id st) (base_dsn ++ "/postgres")).
  destruct (database_rows srv (base_dsn ++ "/postgres") order)
    as [e | data] eqn:Hrows.
  { exists [Connected c; FetchRaised c (SelectDatabases order) e].
    repeat split; try (repeat constructor). discriminate. }
  set (st1 := logged (connected st c) _).
  destruct (loop_hidden srv base_dsn sort show_fields _ data
              (fun d => prints_only_Database d 0) None st1)
    as (evs & E1 & _ & _ & E4 & E5 & E6).
  destruct (fetch_databases_loop srv base_dsn sort false show_fields _
              data None st1) as [[e | []] st2]; cbn [snd fst] in *.
  - exists (Connected c :: Fetched c (SelectDatabases order) :: evs).
    rewrite E1. cbn [st1 logged connected log]. rewrite <- !app_assoc.
    repeat split; try discriminate.
    + repeat (constructor; [reflexivity |]). exact E5.
    + exact E4.
  - exists (Connected c :: Fetched c (SelectDatabases order)
            :: evs ++ [Closed c]).
    cbn [close snd fst log]. rewrite E1.
    cbn [st1 logged connected log]. rewrite <- !app_assoc.
    repeat split.
    + repeat (constructor; [reflexivity |]).
      apply Forall_app. split; [exact E5 | repeat constructor].
    + cbn [yielded]. rewrite yielded_app. cbn [yielded].
      now rewrite app_nil_r.
    + intros _. exists c, order, data. split; [exact Hrows |].
      now rewrite (E6 eq_refl).
Qed.

End HiddenTablesRun.

(** C7: the values of the views and indexes options never reach the
    pipeline: two runs that agree on the sort mode, the tables and fields
    options, the connection string, the server and the starting state end
    with the same result, the same log and the same output, whatever
    their views and indexes values; on the example server a run with both
    set to hide ends normally. *)
Theorem views_and_indexes_are_inert
    (srv : server) (sort tables fields dsn : string)
    (views1 indexes1 views2 indexes2 : string) (st : state) :
  main srv (mkKwargs sort tables fields views1 indexes1 dsn) st
  = main srv (mkKwargs sort tables fields views2 indexes2 dsn) st /\
  fst (main Examples.open_server
         (mkKwargs "name" "show" "show" "hide" "hide" "pg://host") initial)
  = inr tt.
Proof.
  split; [reflexivity | vm_compute; reflexivity].
Qed.

(** C1 (the code departs from it): when the table listing of the first
    database raises [InsufficientPrivilegeError], the name [tables] is
    still unbound at the [yield]: the run stops with [UnboundLocalError],
    nothing is produced or printed.  When it is a later database, the
    run goes on, but that database is produced with the tables of the
    database before it instead of an empty sequence. *)
Theorem privilege_error_leaves_tables_unset :
  (let run := main (Examples.guarded Examples.vault Examples.shop)
                   (Examples.options "show") initial in
   fst run = inl UnboundLocalError /\
   yielded (log (snd run)) = [] /\
   stdout (snd run) = []) /\
  (let run := main (Examples.guarded Examples.shop Examples.vault)
                   (Examples.options "show") initial in
   fst run = inr tt /\
   map (fun d => (Database.name d,
                  map (fun t => (Table.schema t, Table.name t))
                      (Database.tables d)))
       (yielded (log (snd run)))
   = [("shop"%string, [("public"%string, "users"%string)]);
      ("vault"%string, [("public"%string, "users"%string)])]).
Proof.
  split; repeat split; vm_compute; reflexivity.
Qed.

(** ** Connections *)

Section Connections.

Variable srv : server.

Lemma wf_fresh (st : state) (dsn : string) :
  wf st = true ->
  filter (fun c' => negb (same_connection (mkConnection (next_id st) dsn) c'))
         (opened st)
  = opened st.
Proof.
  unfold wf, same_connection. cbn [conn_id].
  induction (opened st) as [| c cs IH]; cbn [forallb filter]; intros H;
    [reflexivity |].
  apply andb_true_iff in H. destruct H as [Hc Hcs].
  apply Nat.ltb_lt in Hc.
  destruct (Nat.eqb_spec (next_id st) (conn_id c)) as [Heq | _];
    [lia | cbn [negb]]. now rewrite IH.
Qed.

Lemma wf_connected (st : state) (dsn : string) (evs : list event) :
  wf st = true ->
  wf (logged (connected st (mkConnection (next_id st) dsn)) evs) = true.
Proof.
  unfold wf. cbn [logged connected opened next_id forallb conn_id].
  intros H. apply andb_true_iff. split; [apply Nat.ltb_lt; lia |].
  rewrite forallb_forall in *. intros c Hc. specialize (H c Hc).
  apply Nat.ltb_lt in H. apply Nat.ltb_lt. lia.
Qed.

Lemma wf_closed (st : state) (dsn : string) (evs : list event) :
  wf st = true ->
  let st' := snd (close (mkConnection (next_id st) dsn)
                        (logged (connected st (mkConnection (next_id st) dsn))
                                evs)) in
  opened st' = opened st /\ wf st' = true.
Proof.
  intros H st'.
  assert (Ho : opened st' = opened st).
  { subst st'. cbn [close snd logged connected opened next_id filter].
    unfold same_connection at 1. cbn [conn_id]. rewrite Nat.eqb_refl.
    cbn [negb]. exact (wf_fresh st dsn H). }
  split; [exact Ho |].
  unfold wf in *. rewrite Ho.
  replace (next_id st') with (S (next_id st)) by reflexivity.
  rewrite forallb_forall in *. intros c Hc. specialize (H c Hc).
  apply Nat.ltb_lt in H. apply Nat.ltb_lt. lia.
Qed.

Lemma quiet_app (evs evs' : list event) :
  quiet (evs ++ evs') = quiet evs && quiet evs'.
Proof. apply forallb_app. Qed.

(** [fetch_tables], one outcome per answer of the server. *)
Lemma fetch_tables_run (base_dsn database_name sort : string)
    (show_fields : bool) (st : state) :
  fetch_tables srv base_dsn database_name sort show_fields st
  = match table_order sort with
    | None => (inl NotImplementedError, st)
    | Some order =>
        let dsn := (base_dsn ++ "/" ++ database_name)%string in
        let c := mkConnection (next_id st) dsn in
        match refuses srv dsn with
        | Some e => (inl e, logged st [ConnectRaised dsn e])
        | None =>
            match table_rows srv dsn order with
            | inl e =>
                (inl e, logged (connected st c)
                               [Connected c;
                                FetchRaised c (SelectTables order) e])
            | inr data =>
                if show_fields then
                  match column_rows srv dsn with
                  | inl e =>
                      (inl e, logged (connected st c)
                                     [Connected c;
                                      Fetched c (SelectTables order);
                                      FetchRaised c SelectColumns e])
                  | inr fields_data =>
                      (inr (fold_left
                              (fun tables row =>
                                 tables ++ [Table_of_row fields_data row])
                              data []),
                       snd (close c
                              (logged (connected st c)
                                      [Connected c;
                                       Fetched c (SelectTables order);
                                       Fetched c SelectColumns])))
                  end
                else
                  (inr (fold_left
                          (fun tables row => tables ++ [Table_of_row [] row])
                          data []),
                   snd (close c
                          (logged (connected st c)
                                  [Connected c;
                                   Fetched c (SelectTables order)])))
            end
        end
    end.
Proof.
  unfold fetch_tables, table_order.
  destruct (String.eqb sort "name");
    [| destruct (String.eqb sort "size"); [| reflexivity]].
  all: unfold bind at 1; cbn [ret]; unfold bind at 1, connect;
    destruct (refuses srv (base_dsn ++ "/" ++ database_name)) as [e |];
    [reflexivity |];
    unfold bind at 1, fetch_table_rows, fetch; cbn [conn_dsn];
    match goal with
    | |- context [table_rows srv ?d ?o] =>
        destruct (table_rows srv d o) as [e | data]
    end;
    [ unfold bind, emit, raise, logged, connected;
      cbn [next_id opened log stdout]; rewrite <- ?app_assoc; reflexivity |];
    destruct show_fields;
    [ unfold fetch_column_rows, fetch; cbn [conn_dsn];
      destruct (column_rows srv (base_dsn ++ "/" ++ database_name))
        as [e | fields_data] |];
    unfold bind, emit, raise, ret, close, logged, connected;
    cbn [next_id opened log stdout snd]; rewrite <- ?app_assoc; reflexivity.
Qed.

(** What [fetch_tables] leaves behind: on a normal return the connection
    it made is closed again and no query has raised; on an exception the
    connection stays open exactly when a query raised. *)
Lemma fetch_tables_effect (base_dsn database_name sort : string)
    (show_fields : bool) (st : state) :
  wf st = true ->
  let run := fetch_tables srv base_dsn database_name sort show_fields st in
  exists evs,
    log (snd run) = log st ++ evs /\
    wf (snd run) = true /\
    match fst run with
    | inr _ => opened (snd run) = opened st /\ quiet evs = true
    | inl _ => quiet evs = true -> opened (snd run) = opened st
    end.
Proof.
  intros Hwf run. subst run. rewrite fetch_tables_run.
  destruct (table_order sort) as [order |].
  2: { exists []. cbn. rewrite app_nil_r. auto. }
  cbv zeta. set (dsn := (base_dsn ++ "/" ++ database_name)%string).
  destruct (refuses srv dsn) as [e |].
  { exists [ConnectRaised dsn e]. cbn. auto. }
  set (c := mkConnection (next_id st) dsn).
  destruct (table_rows srv dsn order) as [e | data].
  { eexists. cbn [snd fst]. split; [reflexivity |]. split.
    - apply wf_connected. exact Hwf.
    - cbn. discriminate. }
  destruct show_fields;
    [destruct (column_rows srv dsn) as [e | fields_data] |].
  - eexists. cbn [snd fst]. split; [reflexivity |]. split.
    + apply wf_connected. exact Hwf.
    + cbn. discriminate.
  - eexists. cbn [fst]. split; [cbn [close snd logged connected log];
                                rewrite <- app_assoc; reflexivity |].
    destruct (wf_closed st dsn
                [Connected c; Fetched c (SelectTables order);
                 Fetched c SelectColumns] Hwf) as [Ho Hw].
    split; [exact Hw |]. split; [exact Ho | reflexivity].
  - eexists. cbn [fst]. split; [cbn [close snd logged connected log];
                                rewrite <- app_assoc; reflexivity |].
    destruct (wf_closed st dsn
                [Connected c; Fetched c (SelectTables order)] Hwf)
      as [Ho Hw].
    split; [exact Hw |]. split; [exact Ho | reflexivity].
Qed.

End Connections.

Section Loop.

Variable srv : server.

(** One iteration of [for row in data], by the outcome of the table
    listing. *)
Lemma loop_step (base_dsn sort : string) (show_tables show_fields : bool)
    (consume : Database.t -> M unit) (row : DatabaseRow)
    (rest : list DatabaseRow) (tables : option (list Table.t)) (st : state) :
  fetch_databases_loop srv base_dsn sort show_tables show_fields consume
                       (row :: rest) tables st
  = let yield_with tables' st1 :=
      match tables' with
      | None => (inl UnboundLocalError, st1)
      | Some ts =>
          match consume (Database_of_row row ts)
                  (logged st1 [Yielded (Database_of_row row ts)]) with
          | (inl e, st2) => (inl e, st2)
          | (inr _, st2) =>
              fetch_databases_loop srv base_dsn sort show_tables show_fields
                                   consume rest tables' st2
          end
      end in
    if show_tables then
      match fetch_tables srv base_dsn (db_name row) sort show_fields st with
      | (inr ts, st1) => yield_with (Some ts) st1
      | (inl InsufficientPrivilegeError, st1) => yield_with tables st1
      | (inl e, st1) => (inl e, st1)
      end
    else yield_with (Some []) st.
Proof.
  cbn [fetch_databases_loop]. destruct show_tables.
  - unfold bind, try_except_privilege, ret, raise, emit, logged.
    destruct (fetch_tables srv base_dsn (db_name row) sort show_fields st)
      as [[e | ts] st1]; [destruct e; try reflexivity; destruct tables |];
      reflexivity.
  - reflexivity.
Qed.

Lemma loop_effect (base_dsn sort : string) (show_tables show_fields : bool)
    (consume : Database.t -> M unit) (data : list DatabaseRow) :
  (forall d, prints_only (consume d)) ->
  forall (tables : option (list Table.t)) (st : state),
  wf st = true ->
  let run := fetch_databases_loop srv base_dsn sort show_tables show_fields
                                  consume data tables st in
  exists evs,
    log (snd run) = log st ++ evs /\
    wf (snd run) = true /\
    (fst run = inr tt -> quiet evs = true -> opened (snd run) = opened st).
Proof.
  intros Hc. induction data as [| row rest IH]; intros tables st Hwf run.
  { exists []. subst run. cbn. rewrite app_nil_r. auto. }
  subst run. rewrite loop_step. cbv zeta.
  assert (Hyield :
    forall tables' st1 evs1,
      log st1 = log st ++ evs1 -> wf st1 = true ->
      (quiet evs1 = true -> opened st1 = opened st) ->
      let run :=
        match tables' with
        | None => (inl UnboundLocalError, st1)
        | Some ts =>
            match consume (Database_of_row row ts)
                    (logged st1 [Yielded (Database_of_row row ts)]) with
            | (inl e, st2) => (inl e, st2)
            | (inr _, st2) =>
                fetch_databases_loop srv base_dsn sort show_tables
                  show_fields consume rest tables' st2
            end
        end in
      exists evs,
        log (snd run) = log st ++ evs /\
        wf (snd run) = true /\
        (fst run = inr tt -> quiet evs = true ->
         opened (snd run) = opened st)).
  { intros tables' st1 evs1 L1 W1 O1 run. subst run.
    destruct tables' as [ts |].
    2: { exists evs1. cbn. repeat split; try assumption. discriminate. }
    set (d := Database_of_row row ts).
    destruct (Hc d (logged st1 [Yielded d])) as (N & O & L).
    destruct (consume d (logged st1 [Yielded d])) as [[e | []] st2];
      cbn [snd fst] in *.
    - exists (evs1 ++ [Yielded d]). rewrite L. cbn [logged log].
      rewrite L1, <- app_assoc. split; [reflexivity |].
      split; [| discriminate].
      unfold wf in *. rewrite N, O. exact W1.
    - assert (W2 : wf st2 = true).
      { unfold wf in *. rewrite N, O. exact W1. }
      destruct (IH (Some ts) st2 W2) as (evs2 & L2 & W3 & O3).
      exists (evs1 ++ Yielded d :: evs2). rewrite L2, L. cbn [logged log].
      rewrite L1, <- !app_assoc. split; [reflexivity |].
      split; [exact W3 |].
      intros Hr Hq. rewrite quiet_app in Hq.
      apply andb_true_iff in Hq. destruct Hq as [Hq1 Hq2].
      cbn [quiet forallb fetch_raised negb andb] in Hq2.
      rewrite (O3 Hr Hq2), O. cbn [logged opened]. exact (O1 Hq1). }
  destruct show_tables.
  - destruct (fetch_tables_effect srv base_dsn (db_name row) sort show_fields
                st Hwf) as (evs1 & L1 & W1 & R1).
    destruct (fetch_tables srv base_dsn (db_name row) sort show_fields st)
      as [[e | ts] st1]; cbn [snd fst] in *.
    + destruct e;
        try (exists evs1; cbn [snd fst]; repeat split;
             [exact L1 | exact W1 | discriminate]).
      apply (Hyield tables st1 evs1 L1 W1 R1).
    + apply (Hyield (Some ts) st1 evs1 L1 W1). intros _. apply R1.
  - apply (Hyield (Some []) st []); [now rewrite app_nil_r | exact Hwf | auto].
Qed.

End Loop.

Section Runs.

Variable srv : server.

Lemma fetch_databases_closed (base_dsn sort : string)
    (show_tables show_fields : bool) (consume : Database.t -> M unit)
    (st st' : state) :
  (forall d, prints_only (consume d)) ->
  wf st = true ->
  fetch_databases srv base_dsn sort show_tables show_fields consume st
  = (inr tt, st') ->
  quiet (log st') = true ->
  opened st' = opened st.
Proof.
  intros Hc Hwf. rewrite fetch_databases_run.
  destruct (database_order sort) as [order |]; [| discriminate].
  cbv zeta. set (dsn := (base_dsn ++ "/postgres")%string).
  destruct (refuses srv dsn) as [e |]; [discriminate |].
  destruct (database_rows srv dsn order) as [e | data]; [discriminate |].
  set (c := mkConnection (next_id st) dsn).
  set (st1 := logged (connected st c) _).
  assert (W1 : wf st1 = true) by (apply wf_connected; exact Hwf).
  destruct (loop_effect srv base_dsn sort show_tables show_fields consume
              data Hc None st1 W1) as (evs & L & _ & O).
  destruct (fetch_databases_loop srv base_dsn sort show_tables show_fields
              consume data None st1) as [[e | []] st2];
    [discriminate |]; cbn [snd fst] in *.
  intros Hrun Hq. injection Hrun as <-.
  cbn [close log opened] in *. rewrite L in Hq.
  rewrite !quiet_app in Hq. apply andb_true_iff in Hq.
  destruct Hq as [Hq _]. apply andb_true_iff in Hq. destruct Hq as [_ Hq].
  rewrite (O eq_refl Hq). cbn [st1 logged connected opened filter].
  unfold same_connection at 1. cbn [c conn_id]. rewrite Nat.eqb_refl.
  cbn [negb]. apply wf_fresh. exact Hwf.
Qed.

End Runs.

(** ** Which connections a run leaves open *)

Section OpenConnections.

Variable srv : server.

Lemma failed_app (evs evs' : list event) :
  failed (evs ++ evs') = failed evs ++ failed evs'.
Proof.
  induction evs as [| ev evs IH]; [reflexivity |].
  destruct ev; cbn [app failed]; rewrite IH; reflexivity.
Qed.

Lemma filter_other_ids (n : nat) (dsn : string) (cs : list connection) :
  Forall (fun c => conn_id c <> n) cs ->
  filter (fun c' => negb (same_connection (mkConnection n dsn) c')) cs = cs.
Proof.
  induction 1 as [| c cs Hc _ IH]; [reflexivity |].
  cbn [filter]. unfold same_connection at 1. cbn [conn_id].
  destruct (Nat.eqb_spec n (conn_id c)) as [E | _]; [congruence |].
  cbn [negb]. rewrite IH. reflexivity.
Qed.

(** [fetch_tables] leaves open, on top of the connections that were open
    before, the connections a query raised on: its own, or none. *)
Lemma fetch_tables_open (base_dsn database_name sort : string)
    (show_fields : bool) (st : state) :
  wf st = true ->
  let run := fetch_tables srv base_dsn database_name sort show_fields st in
  exists evs,
    log (snd run) = log st ++ evs /\
    wf (snd run) = true /\
    (next_id st <= next_id (snd run))%nat /\
    opened (snd run) = rev (failed evs) ++ opened st /\
    Forall (fun c => (next_id st <= conn_id c)%nat) (failed evs).
Proof.
  intros Hwf run. subst run. rewrite fetch_tables_run.
  destruct (table_order sort) as [order |].
  2: { exists []. cbn. rewrite app_nil_r. auto. }
  cbv zeta. set (dsn := (base_dsn ++ "/" ++ database_name)%string).
  destruct (refuses srv dsn) as [e |].
  { exists [ConnectRaised dsn e]. cbn. auto. }
  set (c := mkConnection (next_id st) dsn).
  destruct (table_rows srv dsn order) as [e | data].
  { eexists. cbn [snd]. split; [reflexivity |].
    split; [apply wf_connected; exact Hwf |].
    cbn. repeat split; auto. }
  destruct show_fields;
    [destruct (column_rows srv dsn) as [e | fields_data] |].
  - eexists. cbn [snd]. split; [reflexivity |].
    split; [apply wf_connected; exact Hwf |].
    cbn. repeat split; auto.
  - eexists. split; [cbn [close snd logged connected log];
                     rewrite <- app_assoc; reflexivity |].
    destruct (wf_closed st dsn
                [Connected c; Fetched c (SelectTables order);
                 Fetched c SelectColumns] Hwf) as [Ho Hw].
    cbn [snd]. split; [exact Hw |]. split; [cbn; lia |].
    split; [exact Ho | constructor].
  - eexists. split; [cbn [close snd logged connected log];
                     rewrite <- app_assoc; reflexivity |].
    destruct (wf_closed st dsn
                [Connected c; Fetched c (SelectTables order)] Hwf)
      as [Ho Hw].
    cbn [snd]. split; [exact Hw |]. split; [cbn; lia |].
    split; [exact Ho | constructor].
Qed.

(** The loop leaves open exactly the connections a query raised on,
    however it ends. *)
Lemma loop_open (base_dsn sort : string) (show_tables show_fields : bool)
    (consume : Database.t -> M unit) (data : list DatabaseRow) :
  (forall d, prints_only (consume d)) ->
  forall (tables : option (list Table.t)) (st : state),
  wf st = true ->
  let run := fetch_databases_loop srv base_dsn sort show_tables show_fields
                                  consume data tables st in
  exists evs,
    log (snd run) = log st ++ evs /\
    opened (snd run) = rev (failed evs) ++ opened st /\
    Forall (fun c => (next_id st <= conn_id c)%nat) (failed evs).
Proof.
  intros Hc.
  assert (Hgen :
    forall (tables : option (list Table.t)) (st : state),
    wf st = true ->
    let run := fetch_databases_loop srv base_dsn sort show_tables show_fields
                                    consume data tables st in
    exists evs,
      log (snd run) = log st ++ evs /\
      wf (snd run) = true /\
      (next_id st <= next_id (snd run))%nat /\
      opened (snd run) = rev (failed evs) ++ opened st /\
      Forall (fun c => (next_id st <= conn_id c)%nat) (failed evs)).
  2: { intros tables st Hwf run.
       destruct (Hgen tables st Hwf) as (evs & L & _ & _ & O & F).
       exists evs. auto. }
  induction data as [| row rest IH]; intros tables st Hwf run.
  { exists []. subst run. cbn. rewrite app_nil_r. auto. }
  subst run. rewrite loop_step. cbv zeta.
  assert (Hyield :
    forall tables' st1 evs1,
      log st1 = log st ++ evs1 -> wf st1 = true ->
      (next_id st <= next_id st1)%nat ->
      opened st1 = rev (failed evs1) ++ opened st ->
      Forall (fun c => (next_id st <= conn_id c)%nat) (failed evs1) ->
      let run :=
        match tables' with
        | None => (inl UnboundLocalError, st1)
        | Some ts =>
            match consume (Database_of_row row ts)
                    (logged st1 [Yielded (Database_of_row row ts)]) with
            | (inl e, st2) => (inl e, st2)
            | (inr _, st2) =>
                fetch_databases_loop srv base_dsn sort show_tables
                  show_fields consume rest tables' st2
            end
        end in
      exists evs,
        log (snd run) = log st ++ evs /\
        wf (snd run) = true /\
        (next_id st <= next_id (snd run))%nat /\
        opened (snd run) = rev (failed evs) ++ opened st /\
        Forall (fun c => (next_id st <= conn_id c)%nat) (failed evs)).
  { intros tables' st1 evs1 L1 W1 N1 O1 F1 run. subst run.
    destruct tables' as [ts |].
    2: { exists evs1. cbn [snd]. auto. }
    set (d := Database_of_row row ts).
    destruct (Hc d (logged st1 [Yielded d])) as (N & O & L).
    destruct (consume d (logged st1 [Yielded d])) as [[e | []] st2];
      cbn [snd fst] in *.
    - exists (evs1 ++ [Yielded d]). rewrite L, O, N. cbn [logged log opened
                                                           next_id].
      rewrite L1, <- app_assoc, failed_app. cbn [failed].
      rewrite app_nil_r. split; [reflexivity |].
      split; [unfold wf in *; rewrite N, O; exact W1 |]. auto.
    - assert (W2 : wf st2 = true).
      { unfold wf in *. rewrite N, O. exact W1. }
      destruct (IH (Some ts) st2 W2) as (evs2 & L2 & W3 & N3 & O3 & F3).
      exists (evs1 ++ Yielded d :: evs2). rewrite L2, L. cbn [logged log].
      rewrite L1, <- !app_assoc. split; [reflexivity |].
      split; [exact W3 |].
      rewrite N in N3. cbn [logged next_id] in N3.
      split; [lia |].
      rewrite failed_app. cbn [failed]. rewrite rev_app_distr.
      rewrite O3, O. cbn [logged opened]. rewrite O1, app_assoc.
      split; [reflexivity |].
      apply Forall_app. split; [exact F1 |].
      eapply Forall_impl; [| exact F3]. cbn beta. intros c' Hc'.
      rewrite N in Hc'. cbn [logged next_id] in Hc'. lia. }
  destruct show_tables.
  - destruct (fetch_tables_open base_dsn (db_name row) sort show_fields
                st Hwf) as (evs1 & L1 & W1 & N1 & O1 & F1).
    destruct (fetch_tables srv base_dsn (db_name row) sort show_fields st)
      as [[e | ts] st1]; cbn [snd fst] in *.
    + destruct e;
        try solve [exists evs1; cbn [snd fst]; auto].
      apply (Hyield tables st1 evs1 L1 W1 N1 O1 F1).
    + apply (Hyield (Some ts) st1 evs1 L1 W1 N1 O1 F1).
  - apply (Hyield (Some []) st []); cbn; auto.
    now rewrite app_nil_r.
Qed.

Lemma In_failed (c : connection) (q : query) (e : exn) (evs : list event) :
  In (FetchRaised c q e) evs -> In c (failed evs).
Proof.
  induction evs as [| ev evs IH]; [intros [] |].
  intros [-> | H]; [left; reflexivity |].
  destruct ev; cbn [failed]; try right; auto.
Qed.

(** A run of [fetch_databases]: a connection is open at the end when it
    was open before, when a query raised on it, or when it is the
    connection to [postgres] and the run did not end normally. *)
Lemma fetch_databases_open (base_dsn sort : string)
    (show_tables show_fields : bool) (consume : Database.t -> M unit)
    (st : state) :
  (forall d, prints_only (consume d)) ->
  wf st = true ->
  let run := fetch_databases srv base_dsn sort show_tables show_fields
                             consume st in
  let c0 := mkConnection (next_id st) (base_dsn ++ "/postgres")%string in
  exists evs,
    log (snd run) = log st ++ evs /\
    forall c,
      In c (opened (snd run)) <->
      In c (opened st) \/ In c (failed evs)
      \/ (c = c0 /\ In (Connected c0) evs /\ fst run <> inr tt).
Proof.
  intros Hc Hwf run c0. subst run. rewrite fetch_databases_run.
  destruct (database_order sort) as [order |].
  2: { exists []. cbn [snd fst]. rewrite app_nil_r.
       split; [reflexivity |]. intros c. cbn [failed In]. tauto. }
  cbv zeta. set (dsn := (base_dsn ++ "/postgres")%string) in *.
  destruct (refuses srv dsn) as [e |].
  { exists [ConnectRaised dsn e]. cbn [snd fst logged log opened].
    split; [reflexivity |]. intros c. cbn [failed In].
    split; [tauto |]. intros [H | [[] | (_ & [H | []] & _)]];
      [exact H | discriminate]. }
  fold c0.
  destruct (database_rows srv dsn order) as [e | data].
  { eexists. cbn [snd fst logged connected log opened].
    split; [reflexivity |]. intros c. cbn [failed In].
    split; [tauto |]. intros [H | [[H | []] | (H & _)]]; auto. }
  set (st1 := logged (connected st c0) _).
  assert (W1 : wf st1 = true) by (apply wf_connected; exact Hwf).
  destruct (loop_open base_dsn sort show_tables show_fields consume data Hc
              None st1 W1) as (evs & L & O & F).
  destruct (fetch_databases_loop srv base_dsn sort show_tables show_fields
              consume data None st1) as [[e | []] st2]; cbn [snd fst] in *.
  - exists (Connected c0 :: Fetched c0 (SelectDatabases order) :: evs).
    rewrite L, O. cbn [st1 logged connected log opened].
    rewrite <- !app_assoc. split; [reflexivity |].
    intros c. cbn [failed]. rewrite in_app_iff, <- in_rev. cbn [In].
    split.
    + intros [H | [H | H]]; [tauto | | tauto].
      right. right. repeat split; [auto | left; reflexivity | discriminate].
    + intros [H | [H | (H & _)]]; auto.
  - exists (Connected c0 :: Fetched c0 (SelectDatabases order)
            :: evs ++ [Closed c0]).
    cbn [close snd fst log opened]. rewrite L, O.
    cbn [st1 logged connected log opened].
    rewrite <- !app_assoc. split; [reflexivity |].
    intros c. subst c0. cbn [failed]. rewrite failed_app. cbn [failed].
    rewrite app_nil_r, filter_app.
    rewrite (filter_other_ids (next_id st) dsn (rev (failed evs))).
    2: { apply Forall_rev. eapply Forall_impl; [| exact F].
         cbn beta. intros c' Hc'. cbn [st1 logged connected next_id] in Hc'.
         lia. }
    cbn [filter]. unfold same_connection at 1. cbn [conn_id].
    rewrite Nat.eqb_refl. cbn [negb].
    rewrite (wf_fresh st dsn Hwf), in_app_iff, <- in_rev.
    split; [tauto |]. intros [H | [H | (_ & _ & H)]]; auto.
    exfalso. apply H. reflexivity.
Qed.

End OpenConnections.

(** C4 (as amended): the program closes a connection only as the last
    statement of the function that made it, so a connection stays open
    exactly when that statement is not reached.  Whenever [fetch_tables]
    returns normally, the connection it made is closed again; in general
    it leaves open the connections a query raised on, and no other.  In
    every run that ends normally and in which no query has raised, no
    connection is open at the end; in general a connection is open at the
    end of a run exactly when a query raised on it, or when it is the
    connection to [postgres], it was made, and the run stopped with an
    exception. *)
Theorem connections_closed_when_nothing_raises (srv : server) :
  (forall base_dsn database_name sort show_fields st tables st',
     wf st = true ->
     fetch_tables srv base_dsn database_name sort show_fields st
     = (inr tables, st') ->
     opened st' = opened st) /\
  (forall base_dsn database_name sort show_fields st,
     wf st = true ->
     let run := fetch_tables srv base_dsn database_name sort show_fields st in
     exists evs,
       log (snd run) = log st ++ evs /\
       opened (snd run) = rev (failed evs) ++ opened st /\
       (forall c q e, In (FetchRaised c q e) evs ->
                      In c (opened (snd run)))) /\
  (forall kw st',
     main srv kw initial = (inr tt, st') ->
     quiet (log st') = true ->
     opened st' = []) /\
  (forall kw,
     let run := main srv kw initial in
     let c0 := mkConnection 0 (kw_dsn kw ++ "/postgres")%string in
     forall c,
       In c (opened (snd run)) <->
       In c (failed (log (snd run)))
       \/ (c = c0 /\ In (Connected c0) (log (snd run))
           /\ fst run <> inr tt)).
Proof.
  split; [| split; [| split]].
  - intros base_dsn database_name sort show_fields st tables st' Hwf Hrun.
    destruct (fetch_tables_effect srv base_dsn database_name sort show_fields
                st Hwf) as (evs & _ & _ & R).
    rewrite Hrun in R. cbn [fst snd] in R. apply R.
  - intros base_dsn database_name sort show_fields st Hwf run. subst run.
    destruct (fetch_tables_open srv base_dsn database_name sort show_fields
                st Hwf) as (evs & L & _ & _ & O & _).
    exists evs. split; [exact L |]. split; [exact O |].
    intros c q e Hin. rewrite O, in_app_iff, <- in_rev.
    left. exact (In_failed c q e evs Hin).
  - intros kw st' Hrun Hq. unfold main, fetch_and_display_all in Hrun.
    apply (fetch_databases_closed srv _ _ _ _ _ initial st') in Hrun;
      [exact Hrun | | reflexivity | exact Hq].
    intros d. apply prints_only_Database.
  - intros kw run c0 c. subst run. unfold main, fetch_and_display_all.
    destruct (fetch_databases_open srv (kw_dsn kw) (kw_sort kw)
                (String.eqb (kw_tables kw) "show")
                (String.eqb (kw_fields kw) "show")
                (fun database => Database_display database 0) initial)
      as (evs & L & H); [intros d; apply prints_only_Database | reflexivity |].
    cbn [initial log app next_id opened] in L, H. rewrite L, H.
    cbn [In]. fold c0. tauto.
Qed.

Lemma connections_closed_when_nothing_raises_witness :
  opened (snd (fetch_tables Examples.open_server "pg://host" "shop" "name"
                 true (mkState 1 [mkConnection 0 "pg://host/postgres"] [] [])))
  = [mkConnection 0 "pg://host/postgres"] /\
  (exists evs,
     log (snd (fetch_tables (Examples.guarded Examples.shop Examples.vault)
                 "pg://host" "vault" "name" true initial)) = evs /\
     opened (snd (fetch_tables (Examples.guarded Examples.shop Examples.vault)
                    "pg://host" "vault" "name" true initial))
     = rev (failed evs)) /\
  opened (snd (main Examples.open_server (Examples.options "show") initial))
  = [].
Proof.
  destruct (connections_closed_when_nothing_raises Examples.open_server)
    as (Htables & _ & Hmain & _).
  destruct (connections_closed_when_nothing_raises
              (Examples.guarded Examples.shop Examples.vault))
    as (_ & Hopen & _ & _).
  split; [| split].
  - eapply (Htables "pg://host"%string "shop"%string "name"%string true
              (mkState 1 [mkConnection 0 "pg://host/postgres"] [] [])).
    + reflexivity.
    + vm_compute. reflexivity.
  - destruct (Hopen "pg://host"%string "vault"%string "name"%string true
                initial eq_refl) as (evs & L & O & _).
    exists evs. split; [exact L |]. rewrite O. cbn [initial opened].
    apply app_nil_r.
  - apply (Hmain (Examples.options "show")).
    + vm_compute. reflexivity.
    + vm_compute. reflexivity.
Defined.

(** C4 (as stated) fails: on the server where the table query on [vault]
    raises [InsufficientPrivilegeError], the exception is swallowed and
    the run ends normally with the connection to [vault] still open; when
    [vault] comes first the run stops with two connections open. *)
Lemma swallowed_error_leaves_connection_open :
  (let run := main (Examples.guarded Examples.shop Examples.vault)
                   (Examples.options "show") initial in
   fst run = inr tt /\
   opened (snd run) = [mkConnection 2 "pg://host/vault"]) /\
  (let run := main (Examples.guarded Examples.vault Examples.shop)
                   (Examples.options "show") initial in
   fst run = inl UnboundLocalError /\
   opened (snd run) = [mkConnection 1 "pg://host/vault";
                       mkConnection 0 "pg://host/postgres"]).
Proof.
  split; split; vm_compute; reflexivity.
Qed.

(** * Further properties of the program *)

(** ** The formatters on the values a [bigint] column can hold *)

Section FormatterRange.

Lemma ilog2_ratio_le_log2 (a b : Z) :
  0 < a -> 0 < b -> ilog2_ratio a b <= Z.log2 a.
Proof.
  intros Ha Hb. unfold ilog2_ratio.
  pose proof (Z.log2_nonneg b).
  destruct (_ <? _); lia.
Qed.

(** No quotient of an integer below [2 ^ 1000] by a positive integer
    leaves the range of the floats. *)
Lemma true_divide_in_range (a b : Z) :
  0 < b -> Z.abs a < 2 ^ 1000 -> true_divide a b <> None.
Proof.
  intros Hb Ha. unfold true_divide.
  destruct (Z.eqb_spec b 0) as [? | _]; [lia |].
  destruct (Z.eqb_spec a 0) as [? | Hnz]; [discriminate |].
  rewrite (Z.abs_eq b) by lia.
  set (a' := Z.abs a) in *.
  assert (Ha' : 0 < a') by (unfold a'; lia).
  pose proof (ilog2_ratio_le_log2 a' b Ha' Hb) as He.
  assert (Hlog : Z.log2 a' < 1000) by (apply Z.log2_lt_pow2; lia).
  set (e := ilog2_ratio a' b) in *.
  set (s := Z.max (e - 52) (-1074)).
  set (m := round_half_even (a' * 2 ^ Z.max 0 (- s)) (b * 2 ^ Z.max 0 s)).
  destruct (Z.leb_spec 0 s) as [Hs | Hs]; cbn [andb]; [| discriminate].
  assert (Hs' : s <= 947) by (unfold s; lia).
  assert (Hm : m * 2 ^ s < 2 ^ 1024).
  { assert (Hp : 0 < 2 ^ s) by (apply Z.pow_pos_nonneg; lia).
    assert (Hp' : 2 ^ s <= 2 ^ 947) by (apply Z.pow_le_mono_r; lia).
    pose proof (round_half_even_error (a' * 2 ^ Z.max 0 (- s))
                  (b * 2 ^ Z.max 0 s)) as Herr.
    fold m in Herr.
    rewrite (Z.max_l 0 (- s)), (Z.max_r 0 s) in Herr by lia.
    rewrite Z.pow_0_r, Z.mul_1_r in Herr.
    specialize (Herr ltac:(nia)).
    assert (Hb1 : m * 2 ^ s * b <= (a' + 2 ^ s) * b) by nia.
    assert (Hle : m * 2 ^ s <= a' + 2 ^ s) by nia.
    assert (2 ^ 1000 + 2 ^ 947 < 2 ^ 1024) by (vm_compute; reflexivity).
    lia. }
  destruct (Z.leb_spec (2 ^ 1024) (m * 2 ^ s)); [lia | discriminate].
Qed.

End FormatterRange.

Lemma human_returns_on_bigint (n : Z) :
  - 2 ^ 63 <= n < 2 ^ 63 ->
  (exists v, Size.human (Size.mk n)
             = Some (str_int v ++ " " ++ snd (Size.unit_of (Size.mk n)))%string)
  /\
  (exists v, Count.human (Count.mk n)
             = Some (str_int v ++ snd (Count.unit_of (Count.mk n)))%string).
Proof.
  intros Hn.
  assert (Habs : Z.abs n < 2 ^ 1000).
  { assert (2 ^ 63 < 2 ^ 1000) by (vm_compute; reflexivity). lia. }
  split.
  - unfold Size.human. destruct (Size.unit_of (Size.mk n)) as [power suffix] eqn:U.
    assert (Hp : 0 < 1024 ^ power).
    { unfold Size.unit_of in U. cbn [Size.bytes] in U.
      repeat (destruct (_ <=? _) in U); injection U as <- _; lia. }
    cbn [Size.bytes snd].
    destruct (true_divide n (1024 ^ power)) as [q |] eqn:Hq.
    + exists (py_round q). reflexivity.
    + exfalso. exact (true_divide_in_range n _ Hp Habs Hq).
  - unfold Count.human.
    destruct (Count.unit_of (Count.mk n)) as [power suffix] eqn:U.
    assert (Hp : 0 < 1000 ^ power).
    { unfold Count.unit_of in U. cbn [Count.count] in U.
      repeat (destruct (_ <=? _) in U); injection U as <- _; lia. }
    cbn [Count.count snd].
    destruct (true_divide n (1000 ^ power)) as [q |] eqn:Hq.
    + exists (py_round q). reflexivity.
    + exfalso. exact (true_divide_in_range n _ Hp Habs Hq).
Qed.

(** X1: on every value of a 64-bit signed column, negative ones included,
    both formatters return a text, never [OverflowError]; the text ends
    with the suffix of the unit chosen by the threshold chain. *)
Theorem human_total_on_bigint (n : Z) :
  - 2 ^ 63 <= n < 2 ^ 63 ->
  (exists v, Size.human (Size.mk n)
             = Some (str_int v ++ " " ++ snd (Size.unit_of (Size.mk n)))%string)
  /\
  (exists v, Count.human (Count.mk n)
             = Some (str_int v ++ snd (Count.unit_of (Count.mk n)))%string).
Proof.
  exact (human_returns_on_bigint n).
Qed.

Lemma human_total_on_bigint_witness :
  (exists v, Size.human (Size.mk (2 ^ 63 - 1))
             = Some (str_int v ++ " "
                     ++ snd (Size.unit_of (Size.mk (2 ^ 63 - 1))))%string) /\
  (exists v, Count.human (Count.mk (2 ^ 63 - 1))
             = Some (str_int v
                     ++ snd (Count.unit_of (Count.mk (2 ^ 63 - 1))))%string).
Proof.
  apply (human_total_on_bigint (2 ^ 63 - 1)). lia.
Defined.

Section FormatterValues.

Lemma round_half_even_between (n d lo hi : Z) :
  0 < d -> lo * d <= n < hi * d ->
  lo <= round_half_even n d <= hi.
Proof.
  intros Hd Hn.
  pose proof (round_half_even_error n d Hd) as Herr.
  set (v := round_half_even n d) in *. split; nia.
Qed.

Lemma Size_human_raw (n : Z) :
  - 2 ^ 53 <= n < 1024 ->
  Size.human (Size.mk n) = Some (str_int n ++ " bytes")%string.
Proof.
  intros Hn. unfold Size.human, Size.unit_of. cbn [Size.bytes].
  destruct (Z.leb_spec (1024 ^ 4) n); [lia |].
  destruct (Z.leb_spec (1024 ^ 3) n); [lia |].
  destruct (Z.leb_spec (1024 ^ 2) n); [lia |].
  destruct (Z.leb_spec (1024 ^ 1) n); [lia |].
  destruct (Z.eq_dec n (- 2 ^ 53)) as [-> | Hne].
  - vm_compute. reflexivity.
  - apply (human_value n _ n (" " ++ _)). apply round_true_divide_one. lia.
Qed.

End FormatterValues.

(** X2: below the largest unit the number printed stays inside its unit,
    and the unit is the largest threshold the input reaches.  A size
    from 1024 bytes up to (not including) 1 TiB prints, with the suffix
    of that unit, the integer nearest to the quotient, which lies between
    1 and 1024; a count from 1000 up to (not including) [1000 ^ 3]
    likewise prints a value between 1 and 1000.  The upper bound is
    reached: the value is 1024 (or 1000) exactly for the inputs from half
    a unit below the next threshold on. *)
Theorem human_value_stays_in_unit (n unit : Z) (suffix : string) :
  (In (unit, suffix)
      [(1024 ^ 1, " KiB"); (1024 ^ 2, " MiB"); (1024 ^ 3, " GiB")]%string ->
   unit <= n < 1024 * unit ->
   exists v,
     Size.human (Size.mk n) = Some (str_int v ++ suffix)%string /\
     1 <= v <= 1024 /\
     2 * Z.abs (v * unit - n) <= unit /\
     (v = 1024 <-> 1024 * unit - unit / 2 <= n)) /\
  (In (unit, suffix) [(1000 ^ 1, "k rows"); (1000 ^ 2, "kk rows")]%string ->
   unit <= n < 1000 * unit ->
   exists v,
     Count.human (Count.mk n) = Some (str_int v ++ suffix)%string /\
     1 <= v <= 1000 /\
     2 * Z.abs (v * unit - n) <= unit /\
     (v = 1000 <-> 1000 * unit - unit / 2 <= n)).
Proof.
  split; intros Hin Hn.
  - assert (Hu : 0 < unit /\ 2 * (unit / 2) = unit).
    { cbn [In] in Hin.
      destruct Hin as [H | [H | [H | []]]]; injection H as <- _;
        split; reflexivity. }
    destruct Hu as [Hu Hhalf].
    exists (round_half_even n unit).
    split; [apply Size_human_in_unit; assumption |].
    pose proof (round_half_even_error n unit Hu) as Herr.
    pose proof (round_half_even_top n unit 1024 Hu eq_refl ltac:(lia))
      as Htop.
    split; [apply round_half_even_between; lia |].
    split; [lia |]. rewrite Htop. lia.
  - assert (Hu : 0 < unit /\ 2 * (unit / 2) = unit).
    { cbn [In] in Hin.
      destruct Hin as [H | [H | []]]; injection H as <- _;
        split; reflexivity. }
    destruct Hu as [Hu Hhalf].
    exists (round_half_even n unit).
    split; [apply Count_human_in_unit; assumption |].
    pose proof (round_half_even_error n unit Hu) as Herr.
    pose proof (round_half_even_top n unit 1000 Hu eq_refl ltac:(lia))
      as Htop.
    split; [apply round_half_even_between; lia |].
    split; [lia |]. rewrite Htop. lia.
Qed.

Lemma human_value_stays_in_unit_witness :
  Size.human (Size.mk 1048575) = Some "1024 KiB" /\
  Count.human (Count.mk 999999) = Some "1000k rows".
Proof.
  split.
  - destruct (proj1 (human_value_stays_in_unit 1048575 (1024 ^ 1) " KiB"))
      as (v & Hh & _ & _ & Hv).
    + cbn [In]. auto.
    + simpl. lia.
    + assert (E : v = 1024) by (apply Hv; simpl; lia).
      rewrite E in Hh. exact Hh.
  - destruct (proj2 (human_value_stays_in_unit 999999 (1000 ^ 1) "k rows"))
      as (v & Hh & _ & _ & Hv).
    + cbn [In]. auto.
    + simpl. lia.
    + assert (E : v = 1000) by (apply Hv; simpl; lia).
      rewrite E in Hh. exact Hh.
Defined.

(** X3: a quotient that falls exactly between two integers goes to the
    even one, not up: [1000 * k + 500] rows print [k] when [k] is even and
    [k + 1] when it is odd, and likewise [1024 * k + 512] bytes. *)
Theorem human_rounds_ties_to_even (k : Z) :
  1 <= k < 1000 ->
  Count.human (Count.mk (1000 * k + 500))
  = Some (str_int (if Z.even k then k else k + 1) ++ "k rows")%string /\
  Size.human (Size.mk (1024 * k + 512))
  = Some (str_int (if Z.even k then k else k + 1) ++ " KiB")%string.
Proof.
  intros Hk. split.
  - rewrite Count_human_exact by lia.
    unfold formatCount_spec, format_with. cbn [find fst].
    destruct (Z.leb_spec (1000 ^ 3) (1000 * k + 500)); [lia |].
    destruct (Z.leb_spec (1000 ^ 2) (1000 * k + 500)); [lia |].
    destruct (Z.leb_spec (1000 ^ 1) (1000 * k + 500)); [| lia].
    replace (1000 * k + 500) with (k * (2 * 500) + 500) by lia.
    change (1000 ^ 1) with (2 * 500).
    rewrite round_half_even_tie by lia. reflexivity.
  - rewrite Size_human_exact by lia.
    unfold formatSize_spec, format_with. cbn [find fst].
    destruct (Z.leb_spec (1024 ^ 4) (1024 * k + 512)); [lia |].
    destruct (Z.leb_spec (1024 ^ 3) (1024 * k + 512)); [lia |].
    destruct (Z.leb_spec (1024 ^ 2) (1024 * k + 512)); [lia |].
    destruct (Z.leb_spec (1024 ^ 1) (1024 * k + 512)); [| lia].
    replace (1024 * k + 512) with (k * (2 * 512) + 512) by lia.
    change (1024 ^ 1) with (2 * 512).
    rewrite round_half_even_tie by lia. reflexivity.
Qed.

Lemma human_rounds_ties_to_even_witness :
  Count.human (Count.mk (1000 * 2 + 500))
  = Some (str_int (if Z.even 2 then 2 else 2 + 1) ++ "k rows")%string /\
  Size.human (Size.mk (1024 * 2 + 512))
  = Some (str_int (if Z.even 2 then 2 else 2 + 1) ++ " KiB")%string.
Proof.
  apply (human_rounds_ties_to_even 2). lia.
Defined.

(** X4: a byte count below 1024, negative ones down to [- 2 ^ 53]
    included, is printed as it is, followed by [ bytes]. *)
Theorem Size_human_small_or_negative (n : Z) :
  - 2 ^ 53 <= n < 1024 ->
  Size.human (Size.mk n) = Some (str_int n ++ " bytes")%string.
Proof.
  exact (Size_human_raw n).
Qed.

Lemma Size_human_small_or_negative_witness :
  Size.human (Size.mk (-7)) = Some (str_int (-7) ++ " bytes")%string.
Proof.
  apply (Size_human_small_or_negative (-7)). lia.
Defined.

(** ** What [display] prints *)

Section DisplayText.

Lemma printed_nil (st : state) : printed st [] = st.
Proof. unfold printed. rewrite app_nil_r. now destruct st. Qed.

Lemma printed_printed (st : state) (xs ys : list string) :
  printed (printed st xs) ys = printed st (xs ++ ys).
Proof. unfold printed. cbn. now rewrite app_assoc. Qed.

Lemma display_description_text (description : option string) (ident : nat)
    (st : state) :
  display_description description ident st
  = (inr tt, printed st (description_lines description ident)).
Proof.
  unfold display_description, description_lines.
  destruct (truthy description) as [text |].
  - unfold bind, print, printed. cbn. now rewrite <- app_assoc.
  - cbn. now rewrite printed_nil.
Qed.

Lemma fields_text (fields : list Field.t) (ident : nat) (st : state) :
  for_each fields (fun field => Field_display field ident) st
  = (inr tt, printed st (map (fun field => Field_line field ident) fields)).
Proof.
  revert st. induction fields as [| field rest IH]; intros st.
  - cbn. now rewrite printed_nil.
  - cbn [for_each map]. unfold bind, Field_display at 1, print.
    rewrite IH. unfold printed. cbn. now rewrite <- app_assoc.
Qed.

Lemma Table_display_text (self : Table.t) (ident : nat) (st : state) :
  Table_display self ident st
  = match Table_text self ident with
    | Some lines => (inr tt, printed st lines)
    | None => (inl OverflowError, st)
    end.
Proof.
  unfold Table_display, Table_text.
  destruct (Size.human (Table.size self)) as [size |]; [| reflexivity].
  destruct (Count.human (Table.rows self)) as [rows |]; [| reflexivity].
  unfold bind at 1. cbn [or_overflow ret]. unfold bind at 1.
  cbn [or_overflow ret]. unfold bind at 1, print at 1.
  unfold bind. rewrite display_description_text, fields_text.
  unfold printed. cbn. now rewrite <- !app_assoc.
Qed.

(** The tables of a database are displayed one after the other; the
    first [human()] that raises stops the display, the lines of the
    tables before it being printed already. *)
Lemma tables_text (tables : list Table.t) (ident : nat) (st : state) :
  let run := for_each tables (fun table => Table_display table ident) st in
  match Tables_text tables ident with
  | Some lines => run = (inr tt, printed st lines)
  | None => fst run = inl OverflowError
            /\ exists lines, snd run = printed st lines
  end.
Proof.
  revert st. induction tables as [| table rest IH]; intros st run; subst run.
  - cbn. now rewrite printed_nil.
  - cbn [for_each Tables_text]. unfold bind.
    rewrite Table_display_text.
    destruct (Table_text table ident) as [lines |].
    + specialize (IH (printed st lines)). cbv zeta in IH.
      destruct (Tables_text rest ident) as [more |].
      * rewrite IH. now rewrite printed_printed.
      * destruct IH as [Hf [more Hs]]. split; [exact Hf |].
        exists (lines ++ more). now rewrite Hs, printed_printed.
    + split; [reflexivity |]. exists []. cbn. now rewrite printed_nil.
Qed.

Lemma Database_display_tables (self : Database.t) (ident : nat)
    (size : string) (st : state) :
  Size.human (Database.size self) = Some size ->
  Database_display self ident st
  = for_each (Database.tables self)
             (fun table => Table_display table (S ident))
             (printed st (Database_line self ident size
                          :: description_lines (Database.description self)
                                               ident)).
Proof.
  intros Hsize. unfold Database_display. rewrite Hsize.
  unfold bind. cbn [or_overflow ret print].
  rewrite display_description_text. f_equal.
  unfold printed. cbn. now rewrite <- app_assoc.
Qed.

Lemma Database_display_text (self : Database.t) (ident : nat) (st : state) :
  let run := Database_display self ident st in
  match Database_text self ident with
  | Some lines => run = (inr tt, printed st lines)
  | None => fst run = inl OverflowError
            /\ exists lines, snd run = printed st lines
  end.
Proof.
  intros run. subst run. unfold Database_text.
  destruct (Size.human (Database.size self)) as [size |] eqn:Hsize.
  2: { unfold Database_display. rewrite Hsize.
       split; [reflexivity |]. exists []. cbn. now rewrite printed_nil. }
  rewrite (Database_display_tables self ident size st Hsize).
  set (st1 := printed st _).
  pose proof (tables_text (Database.tables self) (S ident) st1) as H.
  cbv zeta in H.
  destruct (Tables_text (Database.tables self) (S ident)) as [lines |].
  - rewrite H. unfold st1. now rewrite printed_printed.
  - destruct H as [Hf [lines Hs]]. split; [exact Hf |].
    eexists. rewrite Hs. unfold st1. rewrite printed_printed. reflexivity.
Qed.

End DisplayText.

Section DisplayOrder.

Lemma Tables_text_concat (tables : list Table.t) (ident : nat)
    (texts : list (list string)) :
  Forall2 (fun table lines => Table_text table ident = Some lines)
          tables texts ->
  Tables_text tables ident = Some (List.concat texts).
Proof.
  induction 1 as [| table lines tables texts Ht _ IH]; [reflexivity |].
  cbn [Tables_text List.concat]. now rewrite Ht, IH.
Qed.

Lemma Table_text_bigint (self : Table.t) (ident : nat) :
  bigint (Size.bytes (Table.size self)) ->
  bigint (Count.count (Table.rows self)) ->
  Table_text self ident <> None.
Proof.
  intros Hs Hr. unfold Table_text.
  destruct (human_returns_on_bigint _ Hs) as [[v Hv] _].
  destruct (human_returns_on_bigint _ Hr) as [_ [w Hw]].
  destruct (Table.size self) as [bytes], (Table.rows self) as [count].
  cbn [Size.bytes Count.count] in *. rewrite Hv, Hw. discriminate.
Qed.

Lemma Tables_text_bigint (tables : list Table.t) (ident : nat) :
  Forall (fun table => bigint (Size.bytes (Table.size table))
                       /\ bigint (Count.count (Table.rows table))) tables ->
  Tables_text tables ident <> None.
Proof.
  induction 1 as [| table rest [Hs Hr] _ IH]; [discriminate |].
  cbn [Tables_text].
  pose proof (Table_text_bigint table ident Hs Hr).
  destruct (Table_text table ident); [| contradiction].
  destruct (Tables_text rest ident); [discriminate | contradiction].
Qed.

End DisplayOrder.

(** X5: [Table.display] prints the line of the table, then the description
    block (nothing for a missing or empty description), then one line per
    field, in the order of the field list and one level deeper; when the
    size or the row count cannot be formatted it raises before the first
    [print], so nothing of the table is printed. *)
Theorem Table_display_lines (self : Table.t) (ident : nat) (st : state) :
  (forall size rows,
     Size.human (Table.size self) = Some size ->
     Count.human (Table.rows self) = Some rows ->
     Table_display self ident st
     = (inr tt,
        printed st
          (Table_line self ident size rows
           :: description_lines (Table.description self) ident
           ++ map (fun field => Field_line field (S ident))
                  (Table.fields self)))) /\
  (Size.human (Table.size self) = None
   \/ Count.human (Table.rows self) = None ->
   Table_display self ident st = (inl OverflowError, st)) /\
  description_lines None ident = [] /\
  description_lines (Some EmptyString) ident = [].
Proof.
  rewrite Table_display_text. unfold Table_text.
  split; [| split; [| split; reflexivity]].
  - intros size rows -> ->. reflexivity.
  - intros [-> | ->]; [reflexivity |].
    destruct (Size.human (Table.size self)); reflexivity.
Qed.

Lemma Table_display_lines_witness :
  Table_display
    (Table_of_row Examples.users_columns Examples.users_table) 1 initial
  = (inr tt,
     printed initial
       (Table_line (Table_of_row Examples.users_columns Examples.users_table)
                   1 "8 KiB" "3 rows"
        :: description_lines None 1
        ++ map (fun field => Field_line field 2)
               [Field.mk "id" None "integer" None false;
                Field.mk "email" None "text" None true])).
Proof.
  destruct (Table_display_lines
              (Table_of_row Examples.users_columns Examples.users_table)
              1 initial) as [H _].
  apply (H "8 KiB"%string "3 rows"%string); vm_compute; reflexivity.
Defined.

(** X6: [Database.display] prints the line of the database, its
    description block, then the lines of each of its tables, every table
    once, in the order of the table list and one level deeper. *)
Theorem Database_display_lines (self : Database.t) (ident : nat)
    (size : string) (texts : list (list string)) (st : state) :
  Size.human (Database.size self) = Some size ->
  Forall2 (fun table lines => Table_text table (S ident) = Some lines)
          (Database.tables self) texts ->
  Database_display self ident st
  = (inr tt,
     printed st
       (Database_line self ident size
        :: description_lines (Database.description self) ident
        ++ List.concat texts)).
Proof.
  intros Hsize Htexts.
  pose proof (Database_display_text self ident st) as H. cbv zeta in H.
  unfold Database_text in H.
  rewrite Hsize, (Tables_text_concat _ _ _ Htexts) in H. exact H.
Qed.

Lemma Database_display_lines_witness :
  Database_display
    (Database_of_row Examples.vault
       [Table_of_row [] Examples.users_table]) 0 initial
  = (inr tt,
     printed initial
       (Database_line
          (Database_of_row Examples.vault
             [Table_of_row [] Examples.users_table]) 0 "2 KiB"
        :: description_lines (Some "secrets"%string) 0
        ++ List.concat
             [[Table_line (Table_of_row [] Examples.users_table) 1
                          "8 KiB" "3 rows"]])).
Proof.
  apply (Database_display_lines
           (Database_of_row Examples.vault
              [Table_of_row [] Examples.users_table]) 0 "2 KiB"%string
           [[Table_line (Table_of_row [] Examples.users_table) 1
                        "8 KiB" "3 rows"]] initial).
  - vm_compute. reflexivity.
  - repeat constructor.
Defined.

(** X7: a database whose size, and whose tables' sizes and row counts,
    are values of a 64-bit signed column is always displayed to the end:
    [display] returns normally and touches nothing but the output. *)
Theorem Database_display_returns_on_bigint (self : Database.t) (ident : nat)
    (st : state) :
  bigint (Size.bytes (Database.size self)) ->
  Forall (fun table => bigint (Size.bytes (Table.size table))
                       /\ bigint (Count.count (Table.rows table)))
         (Database.tables self) ->
  exists lines,
    Database_display self ident st = (inr tt, printed st lines).
Proof.
  intros Hsize Htables.
  pose proof (Database_display_text self ident st) as H. cbv zeta in H.
  unfold Database_text in H.
  destruct (human_returns_on_bigint _ Hsize) as [[v Hv] _].
  destruct (Database.size self) as [bytes]. cbn [Size.bytes] in *.
  rewrite Hv in H.
  pose proof (Tables_text_bigint (Database.tables self) (S ident) Htables).
  destruct (Tables_text (Database.tables self) (S ident)) as [lines |];
    [| contradiction].
  eexists. exact H.
Qed.

Lemma Database_display_returns_on_bigint_witness :
  exists lines,
    Database_display
      (Database_of_row Examples.shop [Table_of_row [] Examples.users_table])
      0 initial
    = (inr tt, printed initial lines).
Proof.
  apply Database_display_returns_on_bigint.
  - unfold bigint. cbn. lia.
  - repeat constructor; unfold bigint; cbn; lia.
Defined.

(** ** Output that does not depend on the state *)

Section Uniform.

Lemma uniform_ret {A} (a : A) : uniform (ret a).
Proof. exists (inr a), []. intros st. cbn. now rewrite printed_nil. Qed.

Lemma uniform_raise {A} (e : exn) : uniform (@raise A e).
Proof. exists (inl e), []. intros st. cbn. now rewrite printed_nil. Qed.

Lemma uniform_print (line : string) : uniform (print line).
Proof. exists (inr tt), [line]. reflexivity. Qed.

Lemma uniform_bind {A B} (m : M A) (k : A -> M B) :
  uniform m -> (forall a, uniform (k a)) -> uniform (bind m k).
Proof.
  intros (r & lines & Hm) Hk. destruct r as [e | a].
  - exists (inl e), lines. intros st. unfold bind. now rewrite Hm.
  - destruct (Hk a) as (r' & lines' & Hka).
    exists r', (lines ++ lines'). intros st. unfold bind.
    now rewrite Hm, Hka, printed_printed.
Qed.

Lemma uniform_for_each {A} (xs : list A) (body : A -> M unit) :
  (forall x, uniform (body x)) -> uniform (for_each xs body).
Proof.
  intros Hb. induction xs as [| x xs IH]; cbn [for_each].
  - apply uniform_ret.
  - apply uniform_bind; [apply Hb | intros _; exact IH].
Qed.

Lemma uniform_or_overflow (r : option string) : uniform (or_overflow r).
Proof. destruct r; [apply uniform_ret | apply uniform_raise]. Qed.

Lemma uniform_description (description : option string) (ident : nat) :
  uniform (display_description description ident).
Proof.
  exists (inr tt), (description_lines description ident).
  intros st. apply display_description_text.
Qed.

Lemma uniform_Table (self : Table.t) (ident : nat) :
  uniform (Table_display self ident).
Proof.
  unfold Table_display.
  apply uniform_bind; [apply uniform_or_overflow | intros size].
  apply uniform_bind; [apply uniform_or_overflow | intros rows].
  apply uniform_bind; [apply uniform_print | intros _].
  apply uniform_bind; [apply uniform_description | intros _].
  apply uniform_for_each. intros field. apply uniform_print.
Qed.

Lemma uniform_Database (self : Database.t) (ident : nat) :
  uniform (Database_display self ident).
Proof.
  unfold Database_display.
  apply uniform_bind; [apply uniform_or_overflow | intros size].
  apply uniform_bind; [apply uniform_print | intros _].
  apply uniform_bind; [apply uniform_description | intros _].
  apply uniform_for_each. intros table. apply uniform_Table.
Qed.

Lemma Database_display_output (d : Database.t) (st : state) :
  snd (Database_display d 0 st) = printed st (display_output d).
Proof.
  destruct (uniform_Database d 0) as (r & lines & H).
  unfold display_output. rewrite !H. cbn. reflexivity.
Qed.

End Uniform.

(** ** Traffic and output of a run *)

Section Traffic.

Variable srv : server.

Lemma count_connected_app (evs evs' : list event) :
  count_connected (evs ++ evs')
  = (count_connected evs + count_connected evs')%nat.
Proof.
  induction evs as [| ev evs IH]; [reflexivity |].
  destruct ev; cbn [app count_connected]; rewrite IH; reflexivity.
Qed.

Lemma row_of_database_of_row (row : DatabaseRow) (tables : list Table.t) :
  row_of_database (Database_of_row row tables) = row.
Proof. now destruct row. Qed.

Lemma Database_display_appends (self : Database.t) (ident : nat)
    (st : state) :
  exists lines, snd (Database_display self ident st) = printed st lines.
Proof.
  pose proof (Database_display_text self ident st) as H. cbv zeta in H.
  destruct (Database_text self ident) as [lines |].
  - exists lines. now rewrite H.
  - destruct H as [_ H]. exact H.
Qed.

(** [fetch_tables] makes at most one connection, prints nothing and
    produces nothing; without fields it sends no column query. *)
Lemma fetch_tables_traffic (base_dsn database_name sort : string)
    (show_fields : bool) (st : state) :
  let run := fetch_tables srv base_dsn database_name sort show_fields st in
  exists evs,
    log (snd run) = log st ++ evs /\
    stdout (snd run) = stdout st /\
    yielded evs = [] /\
    (count_connected evs <= 1)%nat /\
    (show_fields = false -> ~ In SelectColumns (queries evs)).
Proof.
  intros run. subst run. rewrite fetch_tables_run.
  assert (Hdone :
    forall (st' : state) (evs : list event),
      log st' = log st ++ evs -> stdout st' = stdout st ->
      yielded evs = [] -> (count_connected evs <= 1)%nat ->
      (show_fields = false -> ~ In SelectColumns (queries evs)) ->
      exists evs0,
        log st' = log st ++ evs0 /\
        stdout st' = stdout st /\
        yielded evs0 = [] /\
        (count_connected evs0 <= 1)%nat /\
        (show_fields = false -> ~ In SelectColumns (queries evs0))).
  { intros st' evs; exists evs; auto. }
  destruct (table_order sort) as [order |].
  2: { apply (Hdone st []); cbn; auto. now rewrite app_nil_r. }
  cbv zeta.
  destruct (refuses srv _) as [e |].
  { eapply Hdone; cbn [snd logged log stdout]; try reflexivity; cbn; auto. }
  destruct (table_rows srv _ order) as [e | data].
  { eapply Hdone; cbn [snd logged connected log stdout]; try reflexivity;
      cbn; auto. intros _ [H | []]. discriminate. }
  destruct show_fields; [destruct (column_rows srv _) as [e | columns] |].
  - eapply Hdone; cbn [snd logged connected log stdout]; try reflexivity;
      cbn; auto. discriminate.
  - eapply Hdone; cbn [snd close logged connected log stdout];
      [rewrite <- app_assoc; reflexivity | reflexivity | cbn; auto ..].
    discriminate.
  - eapply Hdone; cbn [snd close logged connected log stdout];
      [rewrite <- app_assoc; reflexivity | reflexivity | cbn; auto ..].
    intros _ [H | []]. discriminate.
Qed.

(** The loop over the database rows: it only appends to the log; what it
    prints is the display of the databases it produces, in their order;
    it produces the rows in their order, each one at most once, all of
    them when it ends normally; and it makes at most one connection per
    row. *)
Lemma loop_traffic (base_dsn sort : string) (show_tables show_fields : bool)
    (data : list DatabaseRow) :
  forall (tables : option (list Table.t)) (st : state),
  let run := fetch_databases_loop srv base_dsn sort show_tables show_fields
               (fun database => Database_display database 0) data tables st in
  exists evs rest,
    log (snd run) = log st ++ evs /\
    stdout (snd run) = stdout st ++ flat_map display_output (yielded evs) /\
    data = map row_of_database (yielded evs) ++ rest /\
    (fst run = inr tt -> rest = []) /\
    (count_connected evs <= List.length data)%nat.
Proof.
  induction data as [| row rest IH]; intros tables st run; subst run.
  { exists [], []. cbn. rewrite !app_nil_r. auto. }
  rewrite loop_step. cbv zeta.
  assert (Hyield :
    forall tables' st1 evs1,
      log st1 = log st ++ evs1 -> stdout st1 = stdout st ->
      yielded evs1 = [] -> (count_connected evs1 <= 1)%nat ->
      let run :=
        match tables' with
        | None => (inl UnboundLocalError, st1)
        | Some ts =>
            match Database_display (Database_of_row row ts) 0
                    (logged st1 [Yielded (Database_of_row row ts)]) with
            | (inl e, st2) => (inl e, st2)
            | (inr _, st2) =>
                fetch_databases_loop srv base_dsn sort show_tables
                  show_fields (fun database => Database_display database 0)
                  rest tables' st2
            end
        end in
      exists evs rest',
        log (snd run) = log st ++ evs /\
        stdout (snd run)
        = stdout st ++ flat_map display_output (yielded evs) /\
        row :: rest = map row_of_database (yielded evs) ++ rest' /\
        (fst run = inr tt -> rest' = []) /\
        (count_connected evs <= List.length (row :: rest))%nat).
  { intros tables' st1 evs1 L1 S1 Y1 C1 run. subst run.
    destruct tables' as [ts |].
    2: { exists evs1, (row :: rest). cbn [snd fst].
         rewrite Y1. cbn [flat_map map app List.length]. rewrite app_nil_r.
         repeat split; try assumption; [discriminate | lia]. }
    set (d := Database_of_row row ts).
    pose proof (Database_display_output d (logged st1 [Yielded d])) as Hd.
    destruct (Database_display d 0 (logged st1 [Yielded d]))
      as [[e | []] st2]; cbn [snd fst] in *; subst st2.
    - exists (evs1 ++ [Yielded d]), rest.
      cbn [printed logged log stdout]. rewrite L1, S1, <- app_assoc.
      rewrite yielded_app, Y1, count_connected_app.
      cbn [app yielded map flat_map count_connected List.length]. unfold d.
      rewrite row_of_database_of_row, app_nil_r.
      repeat split; try reflexivity; [discriminate | lia].
    - destruct (IH (Some ts)
                  (printed (logged st1 [Yielded d]) (display_output d)))
        as (evs2 & rest' & L2 & S2 & D2 & R2 & C2).
      exists (evs1 ++ Yielded d :: evs2), rest'.
      rewrite L2, S2. cbn [printed logged log stdout].
      rewrite L1, S1, <- !app_assoc, yielded_app, Y1, count_connected_app.
      cbn [app yielded map flat_map count_connected List.length]. unfold d.
      rewrite row_of_database_of_row, <- D2.
      repeat split; try reflexivity; [exact R2 | lia]. }
  destruct show_tables.
  - destruct (fetch_tables_traffic base_dsn (db_name row) sort show_fields st)
      as (evs1 & L1 & S1 & Y1 & C1 & _).
    destruct (fetch_tables srv base_dsn (db_name row) sort show_fields st)
      as [[e | ts] st1]; cbn [snd fst] in *.
    + destruct e;
        try (exists evs1, (row :: rest); cbn [snd fst List.length];
             rewrite Y1; cbn [flat_map map app]; rewrite app_nil_r;
             repeat split; try assumption; [discriminate | lia]).
      apply (Hyield tables st1 evs1 L1 S1 Y1 C1).
    + apply (Hyield (Some ts) st1 evs1 L1 S1 Y1 C1).
  - apply (Hyield (Some []) st []); cbn; auto. now rewrite app_nil_r.
Qed.

End Traffic.

Section RunTraffic.

Variable srv : server.

Lemma fetch_databases_traffic (base_dsn sort : string)
    (show_tables show_fields : bool) (st : state) :
  let run := fetch_databases srv base_dsn sort show_tables show_fields
               (fun database => Database_display database 0) st in
  exists evs,
    log (snd run) = log st ++ evs /\
    stdout (snd run) = stdout st ++ flat_map display_output (yielded evs) /\
    (forall order data,
       database_order sort = Some order ->
       refuses srv (base_dsn ++ "/postgres")%string = None ->
       database_rows srv (base_dsn ++ "/postgres")%string order = inr data ->
       exists rest,
         data = map row_of_database (yielded evs) ++ rest /\
         (fst run = inr tt -> rest = []) /\
         (count_connected evs <= 1 + List.length data)%nat) /\
    (fst run = inr tt ->
     exists order data,
       database_order sort = Some order /\
       database_rows srv (base_dsn ++ "/postgres")%string order = inr data).
Proof.
  intros run. subst run. rewrite fetch_databases_run.
  destruct (database_order sort) as [order |].
  2: { exists []. cbn. rewrite !app_nil_r.
       repeat split; intros; first [reflexivity | congruence]. }
  cbv zeta.
  destruct (refuses srv (base_dsn ++ "/postgres")) as [e |].
  { exists [ConnectRaised (base_dsn ++ "/postgres") e].
    cbn. rewrite app_nil_r. repeat split; intros; first [reflexivity | congruence]. }
  set (c := mkConnection (next_id st) (base_dsn ++ "/postgres")).
  destruct (database_rows srv (base_dsn ++ "/postgres") order)
    as [e | data] eqn:Hrows.
  { exists [Connected c; FetchRaised c (SelectDatabases order) e].
    cbn. rewrite app_nil_r. repeat split; intros; first [reflexivity | congruence]. }
  set (st1 := logged (connected st c) _).
  destruct (loop_traffic srv base_dsn sort show_tables show_fields data
              None st1) as (evs & rest & L & S & D & R & C).
  destruct (fetch_databases_loop srv base_dsn sort show_tables show_fields
              _ data None st1) as [[e | []] st2]; cbn [snd fst] in *.
  - exists (Connected c :: Fetched c (SelectDatabases order) :: evs).
    rewrite L, S. cbn [st1 logged connected log stdout yielded].
    rewrite <- !app_assoc. repeat split; try discriminate.
    intros order' data' Ho _ Hd. injection Ho as <-.
    rewrite Hrows in Hd. injection Hd as <-.
    exists rest. cbn [count_connected].
    repeat split; [exact D | discriminate | lia].
  - exists (Connected c :: Fetched c (SelectDatabases order)
            :: evs ++ [Closed c]).
    cbn [close snd fst log stdout]. rewrite L, S.
    cbn [st1 logged connected log stdout yielded].
    rewrite <- !app_assoc, yielded_app. cbn [yielded]. rewrite app_nil_r.
    repeat split.
    + intros order' data' Ho _ Hd. injection Ho as <-.
      rewrite Hrows in Hd. injection Hd as <-.
      exists rest. cbn [count_connected]. rewrite count_connected_app.
      cbn [count_connected]. repeat split; [exact D | exact R | lia].
    + intros _. exists order, data. split; [reflexivity | exact Hrows].
Qed.

End RunTraffic.

(** ** Runs without table listing: what they fetch and what they print *)

Lemma display_output_alone (d : Database.t) :
  Database.tables d = [] -> display_output d = Database_lines_alone d.
Proof.
  intros Hno. unfold display_output, Database_lines_alone.
  rewrite (Database_display_no_tables d 0 Hno).
  unfold Database_display_alone, bind, or_overflow, ret, raise, print.
  destruct (Size.human (Database.size d)) as [size |]; [| reflexivity].
  rewrite display_description_text. reflexivity.
Qed.

Lemma flat_map_display_alone (ds : list Database.t) :
  Forall (fun d => Database.tables d = []) ds ->
  flat_map display_output ds = flat_map Database_lines_alone ds.
Proof.
  induction 1 as [| d ds Hd _ IH]; [reflexivity |].
  cbn [flat_map]. rewrite IH, (display_output_alone d Hd). reflexivity.
Qed.

(** C5: with the hide-tables option, whatever the server answers, the
    run talks to the [postgres] database only (no connection to another
    database, no table or column query), every database it produces has
    an empty table sequence and is rendered as its own line and
    description, without table lines: what the run prints is, for each
    database produced and in their order, the line of the database and
    its description block, and nothing else.  A run that ends normally
    has produced and printed one such database per row of the database
    list, in order. *)
Theorem hide_tables_skips_table_fetch
    (srv : server) (dsn sort indexes views fields : string) (st : state) :
  let run := fetch_and_display_all srv dsn sort "hide" indexes views fields st in
  exists evs,
    log (snd run) = log st ++ evs /\
    Forall (no_table_fetch dsn) evs /\
    Forall (fun d => Database.tables d = [] /\
                     forall st0, Database_display d 0 st0
                                 = Database_display_alone d 0 st0)
           (yielded evs) /\
    stdout (snd run)
    = stdout st ++ flat_map Database_lines_alone (yielded evs) /\
    (fst run = inr tt ->
     exists c order data,
       database_rows srv (dsn ++ "/postgres")%string order = inr data /\
       evs = Connected c :: Fetched c (SelectDatabases order)
             :: map (fun row => Yielded (Database_of_row row [])) data
             ++ [Closed c] /\
       stdout (snd run)
       = stdout st
         ++ flat_map (fun row => Database_lines_alone (Database_of_row row []))
                     data).
Proof.
  intros run. subst run. unfold fetch_and_display_all.
  change (String.eqb "hide" "show") with false.
  destruct (fetch_databases_hidden srv dsn sort (String.eqb fields "show") st)
    as (evs & E1 & E2 & E3 & E4).
  destruct (fetch_databases_traffic srv dsn sort false
              (String.eqb fields "show") st) as (evs' & L & S & _).
  assert (Hevs : evs' = evs).
  { rewrite E1 in L. apply app_inv_head in L. symmetry. exact L. }
  subst evs'.
  assert (Hout :
    stdout (snd (fetch_databases srv dsn sort false
                   (String.eqb fields "show")
                   (fun database => Database_display database 0) st))
    = stdout st ++ flat_map Database_lines_alone (yielded evs)).
  { rewrite S, (flat_map_display_alone _ E3). reflexivity. }
  exists evs. split; [exact E1 |]. split; [exact E2 |].
  split; [now apply Forall_no_tables |]. split; [exact Hout |].
  intros Hr. destruct (E4 Hr) as (c & order & data & Hd & Hev).
  exists c, order, data. split; [exact Hd |]. split; [exact Hev |].
  rewrite Hout. f_equal. rewrite Hev. cbn [yielded].
  rewrite yielded_app. cbn [yielded]. rewrite app_nil_r.
  clear. induction data as [| row rest IH]; [reflexivity |].
  cbn [map yielded flat_map]. rewrite IH. reflexivity.
Qed.

Lemma hide_tables_skips_table_fetch_witness :
  let run := fetch_and_display_all Examples.open_server "pg://host" "name"
               "hide" "show" "show" "show" initial in
  exists evs,
    log (snd run) = evs /\
    Forall (no_table_fetch "pg://host") evs /\
    yielded evs = [Database_of_row Examples.shop [];
                   Database_of_row Examples.vault []] /\
    stdout (snd run)
    = Database_lines_alone (Database_of_row Examples.shop [])
      ++ Database_lines_alone (Database_of_row Examples.vault []).
Proof.
  destruct (hide_tables_skips_table_fetch Examples.open_server "pg://host"
              "name" "show" "show" "show" initial)
    as (evs & E1 & E2 & _ & _ & E5).
  exists evs. split; [exact E1 |]. split; [exact E2 |].
  destruct (E5 ltac:(vm_compute; reflexivity))
    as (c & order & data & Hd & -> & Hout).
  vm_compute in Hd. injection Hd as <-.
  split; [cbn [yielded map app]; reflexivity |].
  rewrite Hout. cbn [flat_map initial stdout app]. rewrite app_nil_r.
  reflexivity.
Defined.

(** X8: whatever the server answers and however the run ends, the run
    only appends to the log and to the output, and what it prints is
    exactly the display of the databases it has produced, in the order of
    production: the lines of the databases rendered before a failure
    stay, and nothing else is ever printed. *)
Theorem output_is_display_of_produced
    (srv : server) (kw : kwargs) (st : state) :
  let run := main srv kw st in
  exists evs,
    log (snd run) = log st ++ evs /\
    stdout (snd run) = stdout st ++ flat_map display_output (yielded evs).
Proof.
  intros run. subst run. unfold main, fetch_and_display_all.
  destruct (fetch_databases_traffic srv (kw_dsn kw) (kw_sort kw)
              (String.eqb (kw_tables kw) "show")
              (String.eqb (kw_fields kw) "show") st)
    as (evs & L & S & _).
  exists evs. split; assumption.
Qed.

(** X9: when the database list is fetched, the databases are produced in
    the order of its rows, each row at most once and none skipped, with
    the name, owner, description and size of the row; a run that ends
    normally has produced every row. *)
Theorem databases_produced_in_row_order
    (srv : server) (kw : kwargs) (order : string) (data : list DatabaseRow) :
  database_order (kw_sort kw) = Some order ->
  refuses srv (kw_dsn kw ++ "/postgres")%string = None ->
  database_rows srv (kw_dsn kw ++ "/postgres")%string order = inr data ->
  let run := main srv kw initial in
  exists rest,
    data = map row_of_database (yielded (log (snd run))) ++ rest /\
    (fst run = inr tt -> rest = []).
Proof.
  intros Ho Hc Hd run. subst run. unfold main, fetch_and_display_all.
  destruct (fetch_databases_traffic srv (kw_dsn kw) (kw_sort kw)
              (String.eqb (kw_tables kw) "show")
              (String.eqb (kw_fields kw) "show") initial)
    as (evs & L & _ & H & _).
  destruct (H order data Ho Hc Hd) as (rest & D & R & _).
  exists rest. rewrite L. cbn [initial log app]. split; assumption.
Qed.

Lemma databases_produced_in_row_order_witness :
  exists rest,
    [Examples.shop; Examples.vault]
    = map row_of_database
          (yielded (log (snd (main (Examples.guarded Examples.shop
                                                     Examples.vault)
                                   (Examples.options "show") initial))))
      ++ rest /\
    (fst (main (Examples.guarded Examples.shop Examples.vault)
               (Examples.options "show") initial) = inr tt -> rest = []).
Proof.
  apply (databases_produced_in_row_order
           (Examples.guarded Examples.shop Examples.vault)
           (Examples.options "show") "db.datname"%string
           [Examples.shop; Examples.vault]); reflexivity.
Defined.

(** X10: a run makes at most one connection per row of the database list,
    besides the one to [postgres]. *)
Theorem one_connection_per_database
    (srv : server) (kw : kwargs) (order : string) (data : list DatabaseRow) :
  database_order (kw_sort kw) = Some order ->
  refuses srv (kw_dsn kw ++ "/postgres")%string = None ->
  database_rows srv (kw_dsn kw ++ "/postgres")%string order = inr data ->
  (count_connected (log (snd (main srv kw initial)))
   <= 1 + List.length data)%nat.
Proof.
  intros Ho Hc Hd. unfold main, fetch_and_display_all.
  destruct (fetch_databases_traffic srv (kw_dsn kw) (kw_sort kw)
              (String.eqb (kw_tables kw) "show")
              (String.eqb (kw_fields kw) "show") initial)
    as (evs & L & _ & H & _).
  destruct (H order data Ho Hc Hd) as (rest & _ & _ & C).
  rewrite L. exact C.
Qed.

Lemma one_connection_per_database_witness :
  (count_connected
     (log (snd (main Examples.open_server (Examples.options "show") initial)))
   <= 1 + 2)%nat.
Proof.
  apply (one_connection_per_database Examples.open_server
           (Examples.options "show") "db.datname"%string
           [Examples.shop; Examples.vault]); reflexivity.
Defined.

(** X11: a sort mode other than [name] and [size] makes [fetch_databases]
    and [fetch_tables] raise [NotImplementedError] before anything else:
    no connection is made, nothing is logged or printed. *)
Theorem unknown_sort_raises_before_connecting
    (srv : server) (kw : kwargs) (st : state) :
  kw_sort kw <> "name"%string -> kw_sort kw <> "size"%string ->
  main srv kw st = (inl NotImplementedError, st) /\
  forall base_dsn database_name show_fields,
    fetch_tables srv base_dsn database_name (kw_sort kw) show_fields st
    = (inl NotImplementedError, st).
Proof.
  intros Hn Hs.
  apply String.eqb_neq in Hn. apply String.eqb_neq in Hs.
  split.
  - unfold main, fetch_and_display_all. rewrite fetch_databases_run.
    unfold database_order. now rewrite Hn, Hs.
  - intros base_dsn database_name show_fields. rewrite fetch_tables_run.
    unfold table_order. now rewrite Hn, Hs.
Qed.

Lemma unknown_sort_raises_before_connecting_witness :
  main Examples.open_server
       (mkKwargs "rows" "show" "show" "show" "show" "pg://host") initial
  = (inl NotImplementedError, initial) /\
  forall base_dsn database_name show_fields,
    fetch_tables Examples.open_server base_dsn database_name "rows"
                 show_fields initial
    = (inl NotImplementedError, initial).
Proof.
  apply (unknown_sort_raises_before_connecting Examples.open_server
           (mkKwargs "rows" "show" "show" "show" "show" "pg://host") initial);
    discriminate.
Defined.

(** ** What [fetch_tables] returns *)

Section TablesResult.

Variable srv : server.

Lemma fetch_tables_result (base_dsn database_name sort : string)
    (show_fields : bool) (st st' : state) (tables : list Table.t) :
  fetch_tables srv base_dsn database_name sort show_fields st
  = (inr tables, st') ->
  exists order data columns,
    table_order sort = Some order /\
    table_rows srv (base_dsn ++ "/" ++ database_name)%string order
    = inr data /\
    (if show_fields
     then column_rows srv (base_dsn ++ "/" ++ database_name)%string
          = inr columns
     else columns = []) /\
    tables = map (Table_of_row columns) data.
Proof.
  rewrite fetch_tables_run.
  destruct (table_order sort) as [order |]; [| discriminate].
  cbv zeta.
  destruct (refuses srv _); [discriminate |].
  destruct (table_rows srv _ order) as [e | data] eqn:Hrows; [discriminate |].
  destruct show_fields.
  - destruct (column_rows srv _) as [e | columns] eqn:Hcols; [discriminate |].
    intros H. injection H as <- _. exists order, data, columns.
    rewrite append_loop. auto.
  - intros H. injection H as <- _. exists order, data, [].
    rewrite append_loop. auto.
Qed.

Lemma queries_app (evs evs' : list event) :
  queries (evs ++ evs') = queries evs ++ queries evs'.
Proof.
  induction evs as [| ev evs IH]; [reflexivity |].
  destruct ev; cbn [app queries]; rewrite IH; reflexivity.
Qed.

Lemma fetch_fields_nil (schema_name table_name : string) :
  fetch_fields [] schema_name table_name = [].
Proof. reflexivity. Qed.

(** Without fields, every iteration of the loop keeps the column query
    unsent and the tables of the produced databases without fields. *)
Lemma loop_hidden_fields (base_dsn sort : string) (show_tables : bool)
    (data : list DatabaseRow) :
  forall (tables : option (list Table.t)) (st : state),
  (forall ts, tables = Some ts -> Forall (fun t => Table.fields t = []) ts) ->
  let run := fetch_databases_loop srv base_dsn sort show_tables false
               (fun database => Database_display database 0) data tables st in
  exists evs,
    log (snd run) = log st ++ evs /\
    ~ In SelectColumns (queries evs) /\
    Forall (fun d => Forall (fun t => Table.fields t = [])
                            (Database.tables d)) (yielded evs).
Proof.
  induction data as [| row rest IH]; intros tables st Htables run; subst run.
  { exists []. cbn. rewrite app_nil_r. auto. }
  rewrite loop_step. cbv zeta.
  assert (Hyield :
    forall tables' st1 evs1,
      log st1 = log st ++ evs1 -> yielded evs1 = [] ->
      ~ In SelectColumns (queries evs1) ->
      (forall ts, tables' = Some ts ->
                  Forall (fun t => Table.fields t = []) ts) ->
      let run :=
        match tables' with
        | None => (inl UnboundLocalError, st1)
        | Some ts =>
            match Database_display (Database_of_row row ts) 0
                    (logged st1 [Yielded (Database_of_row row ts)]) with
            | (inl e, st2) => (inl e, st2)
            | (inr _, st2) =>
                fetch_databases_loop srv base_dsn sort show_tables false
                  (fun database => Database_display database 0)
                  rest tables' st2
            end
        end in
      exists evs,
        log (snd run) = log st ++ evs /\
        ~ In SelectColumns (queries evs) /\
        Forall (fun d => Forall (fun t => Table.fields t = [])
                                (Database.tables d)) (yielded evs)).
  { intros tables' st1 evs1 L1 Y1 Q1 T1 run. subst run.
    destruct tables' as [ts |].
    2: { exists evs1. cbn [snd]. rewrite Y1. auto. }
    set (d := Database_of_row row ts).
    pose proof (Database_display_output d (logged st1 [Yielded d])) as Hd.
    destruct (Database_display d 0 (logged st1 [Yielded d]))
      as [[e | []] st2]; cbn [snd fst] in *; subst st2.
    - exists (evs1 ++ [Yielded d]). cbn [printed logged log].
      rewrite L1, <- app_assoc, queries_app, yielded_app, Y1.
      cbn [queries yielded app]. rewrite app_nil_r.
      repeat split; [exact Q1 |]. constructor; [| constructor].
      apply (T1 ts eq_refl).
    - destruct (IH (Some ts)
                  (printed (logged st1 [Yielded d]) (display_output d)) T1)
        as (evs2 & L2 & Q2 & Y2).
      exists (evs1 ++ Yielded d :: evs2). rewrite L2.
      cbn [printed logged log].
      rewrite L1, <- !app_assoc, queries_app, yielded_app, Y1.
      cbn [queries yielded app].
      repeat split.
      + intros Hin. apply in_app_or in Hin. tauto.
      + constructor; [apply (T1 ts eq_refl) | exact Y2]. }
  destruct show_tables.
  - destruct (fetch_tables_traffic srv base_dsn (db_name row) sort false st)
      as (evs1 & L1 & _ & Y1 & _ & Q1).
    specialize (Q1 eq_refl).
    destruct (fetch_tables srv base_dsn (db_name row) sort false st)
      as [[e | ts] st1] eqn:Hrun; cbn [snd fst] in *.
    + destruct e;
        try solve [exists evs1; cbn [snd]; rewrite Y1; auto].
      apply (Hyield tables st1 evs1 L1 Y1 Q1 Htables).
    + apply (Hyield (Some ts) st1 evs1 L1 Y1 Q1).
      intros ts' Hts. injection Hts as <-.
      destruct (fetch_tables_result _ _ _ _ _ _ _ Hrun)
        as (order & rows & columns & _ & _ & -> & ->).
      apply Forall_forall. intros t Ht. apply in_map_iff in Ht.
      destruct Ht as (r & <- & _). reflexivity.
  - apply (Hyield (Some []) st []); cbn; auto.
    + now rewrite app_nil_r.
    + intros ts Hts. injection Hts as <-. constructor.
Qed.

End TablesResult.

(** ** Errors and hidden fields over a whole run *)

Section RunErrors.

Variable srv : server.

Lemma raised_app (evs evs' : list event) :
  raised (evs ++ evs') = raised evs ++ raised evs'.
Proof.
  induction evs as [| ev evs IH]; [reflexivity |].
  destruct ev; cbn [app raised]; rewrite IH; reflexivity.
Qed.

(** An error the server raises inside [fetch_tables] is the error
    [fetch_tables] raises. *)
Lemma fetch_tables_errors (base_dsn database_name sort : string)
    (show_fields : bool) (st : state) :
  let run := fetch_tables srv base_dsn database_name sort show_fields st in
  exists evs,
    log (snd run) = log st ++ evs /\
    yielded evs = [] /\
    forall e, In e (raised evs) -> fst run = inl e.
Proof.
  intros run. subst run. rewrite fetch_tables_run.
  destruct (table_order sort) as [order |].
  2: { exists []. cbn. rewrite app_nil_r. repeat split. intros e []. }
  cbv zeta.
  destruct (refuses srv _) as [e |].
  { eexists. cbn [snd fst logged log]. repeat split.
    intros e' [<- | []]. reflexivity. }
  destruct (table_rows srv _ order) as [e | data].
  { eexists. cbn [snd fst logged connected log]. repeat split.
    intros e' [<- | []]. reflexivity. }
  destruct show_fields; [destruct (column_rows srv _) as [e | columns] |].
  - eexists. cbn [snd fst logged connected log]. repeat split.
    intros e' [<- | []]. reflexivity.
  - eexists. cbn [snd fst close logged connected log].
    rewrite <- app_assoc. repeat split. intros e' [].
  - eexists. cbn [snd fst close logged connected log].
    rewrite <- app_assoc. repeat split. intros e' [].
Qed.

(** Over the loop, an error of the server that does not end the loop is
    an [InsufficientPrivilegeError]. *)
Lemma loop_errors (base_dsn sort : string) (show_tables show_fields : bool)
    (data : list DatabaseRow) :
  forall (tables : option (list Table.t)) (st : state),
  let run := fetch_databases_loop srv base_dsn sort show_tables show_fields
               (fun database => Database_display database 0) data tables st in
  exists evs,
    log (snd run) = log st ++ evs /\
    forall e, In e (raised evs) ->
              e = InsufficientPrivilegeError \/ fst run = inl e.
Proof.
  induction data as [| row rest IH]; intros tables st run; subst run.
  { exists []. cbn. rewrite app_nil_r. split; [reflexivity | intros e []]. }
  rewrite loop_step. cbv zeta.
  assert (Hyield :
    forall tables' st1 evs1,
      log st1 = log st ++ evs1 ->
      (forall e, In e (raised evs1) -> e = InsufficientPrivilegeError) ->
      let run :=
        match tables' with
        | None => (inl UnboundLocalError, st1)
        | Some ts =>
            match Database_display (Database_of_row row ts) 0
                    (logged st1 [Yielded (Database_of_row row ts)]) with
            | (inl e, st2) => (inl e, st2)
            | (inr _, st2) =>
                fetch_databases_loop srv base_dsn sort show_tables
                  show_fields (fun database => Database_display database 0)
                  rest tables' st2
            end
        end in
      exists evs,
        log (snd run) = log st ++ evs /\
        forall e, In e (raised evs) ->
                  e = InsufficientPrivilegeError \/ fst run = inl e).
  { intros tables' st1 evs1 L1 R1 run. subst run.
    destruct tables' as [ts |].
    2: { exists evs1. cbn [snd]. split; [exact L1 | auto]. }
    set (d := Database_of_row row ts).
    pose proof (Database_display_output d (logged st1 [Yielded d])) as Hd.
    destruct (Database_display d 0 (logged st1 [Yielded d]))
      as [[e | []] st2]; cbn [snd fst] in *; subst st2.
    - exists (evs1 ++ [Yielded d]). cbn [printed logged log].
      rewrite L1, <- app_assoc. split; [reflexivity |].
      intros e' He'. rewrite raised_app in He'. cbn [raised] in He'.
      rewrite app_nil_r in He'. auto.
    - destruct (IH (Some ts)
                  (printed (logged st1 [Yielded d]) (display_output d)))
        as (evs2 & L2 & R2).
      exists (evs1 ++ Yielded d :: evs2). rewrite L2.
      cbn [printed logged log]. rewrite L1, <- !app_assoc.
      split; [reflexivity |].
      intros e' He'. rewrite raised_app in He'. cbn [raised] in He'.
      apply in_app_or in He'. destruct He' as [He' | He']; auto. }
  destruct show_tables.
  - destruct (fetch_tables_errors base_dsn (db_name row) sort show_fields st)
      as (evs1 & L1 & _ & R1).
    destruct (fetch_tables srv base_dsn (db_name row) sort show_fields st)
      as [[e | ts] st1]; cbn [snd fst] in *.
    + destruct e;
        try solve [exists evs1; cbn [snd fst]; split;
                   [exact L1
                   | intros e' He'; right; specialize (R1 e' He');
                     congruence]].
      apply (Hyield tables st1 evs1 L1).
      intros e' He'. specialize (R1 e' He'). congruence.
    + apply (Hyield (Some ts) st1 evs1 L1).
      intros e' He'. specialize (R1 e' He'). discriminate.
  - apply (Hyield (Some []) st []); [now rewrite app_nil_r | intros e' []].
Qed.

Lemma fetch_databases_errors (base_dsn sort : string)
    (show_tables show_fields : bool) (st : state) :
  let run := fetch_databases srv base_dsn sort show_tables show_fields
               (fun database => Database_display database 0) st in
  exists evs,
    log (snd run) = log st ++ evs /\
    forall e, In e (raised evs) ->
              e = InsufficientPrivilegeError \/ fst run = inl e.
Proof.
  intros run. subst run. rewrite fetch_databases_run.
  destruct (database_order sort) as [order |].
  2: { exists []. cbn. rewrite app_nil_r. split; [reflexivity | intros e []]. }
  cbv zeta.
  destruct (refuses srv (base_dsn ++ "/postgres")) as [e |].
  { eexists. cbn [snd fst logged log]. split; [reflexivity |].
    intros e' [<- | []]. auto. }
  set (c := mkConnection (next_id st) (base_dsn ++ "/postgres")).
  destruct (database_rows srv (base_dsn ++ "/postgres") order) as [e | data].
  { eexists. cbn [snd fst logged connected log]. split; [reflexivity |].
    intros e' [<- | []]. auto. }
  set (st1 := logged (connected st c) _).
  destruct (loop_errors base_dsn sort show_tables show_fields data None st1)
    as (evs & L & R).
  destruct (fetch_databases_loop srv base_dsn sort show_tables show_fields
              _ data None st1) as [[e | []] st2]; cbn [snd fst] in *.
  - exists (Connected c :: Fetched c (SelectDatabases order) :: evs).
    rewrite L. cbn [st1 logged connected log]. rewrite <- !app_assoc.
    split; [reflexivity | exact R].
  - exists (Connected c :: Fetched c (SelectDatabases order)
            :: evs ++ [Closed c]).
    cbn [close snd fst log]. rewrite L.
    cbn [st1 logged connected log]. rewrite <- !app_assoc.
    split; [reflexivity |].
    intros e' He'. cbn [raised] in He'. rewrite raised_app in He'.
    cbn [raised] in He'. rewrite app_nil_r in He'.
    destruct (R e' He') as [-> | H]; [auto | discriminate].
Qed.

Lemma fetch_databases_hidden_fields (base_dsn sort : string)
    (show_tables : bool) (st : state) :
  let run := fetch_databases srv base_dsn sort show_tables false
               (fun database => Database_display database 0) st in
  exists evs,
    log (snd run) = log st ++ evs /\
    ~ In SelectColumns (queries evs) /\
    Forall (fun d => without_fields (Database.tables d)) (yielded evs).
Proof.
  intros run. subst run. rewrite fetch_databases_run.
  destruct (database_order sort) as [order |].
  2: { exists []. cbn. rewrite app_nil_r. auto. }
  cbv zeta.
  destruct (refuses srv (base_dsn ++ "/postgres")) as [e |].
  { eexists. cbn [snd logged log]. repeat split; cbn; auto. }
  set (c := mkConnection (next_id st) (base_dsn ++ "/postgres")).
  destruct (database_rows srv (base_dsn ++ "/postgres") order) as [e | data].
  { eexists. cbn [snd logged connected log]. repeat split; cbn; auto.
    intros [H | []]. discriminate. }
  set (st1 := logged (connected st c) _).
  destruct (loop_hidden_fields srv base_dsn sort show_tables data None st1)
    as (evs & L & Q & Y); [discriminate |].
  destruct (fetch_databases_loop srv base_dsn sort show_tables false
              _ data None st1) as [[e | []] st2]; cbn [snd fst] in *.
  - exists (Connected c :: Fetched c (SelectDatabases order) :: evs).
    rewrite L. cbn [st1 logged connected log]. rewrite <- !app_assoc.
    repeat split; cbn [queries yielded app]; [| exact Y].
    intros [H | H]; [discriminate | auto].
  - exists (Connected c :: Fetched c (SelectDatabases order)
            :: evs ++ [Closed c]).
    cbn [close snd fst log]. rewrite L.
    cbn [st1 logged connected log]. rewrite <- !app_assoc.
    repeat split; cbn [queries yielded app];
      rewrite ?queries_app, ?yielded_app; cbn [queries yielded];
      rewrite ?app_nil_r; [| exact Y].
    intros [H | H]; [discriminate | auto].
Qed.

End RunErrors.

(** X12: when [fetch_tables] returns, the sort key is a known one, both
    queries were answered, and the list it returns has one table per row
    of the table listing, in the order of the rows, each built from its
    row and from the answer to the column query (from no column at all
    when fields are hidden). *)
Theorem fetch_tables_one_table_per_row
    (srv : server) (base_dsn database_name sort : string)
    (show_fields : bool) (st st' : state) (tables : list Table.t) :
  fetch_tables srv base_dsn database_name sort show_fields st
  = (inr tables, st') ->
  exists order data columns,
    table_order sort = Some order /\
    table_rows srv (base_dsn ++ "/" ++ database_name)%string order
    = inr data /\
    (if show_fields
     then column_rows srv (base_dsn ++ "/" ++ database_name)%string
          = inr columns
     else columns = []) /\
    tables = map (Table_of_row columns) data.
Proof. apply fetch_tables_result. Qed.

Lemma fetch_tables_one_table_per_row_witness :
  exists order data columns,
    table_order "name" = Some order /\
    table_rows Examples.open_server "pg://host/shop" order = inr data /\
    column_rows Examples.open_server "pg://host/shop" = inr columns /\
    [Table_of_row Examples.users_columns Examples.users_table]
    = map (Table_of_row columns) data.
Proof.
  apply (fetch_tables_one_table_per_row Examples.open_server
           "pg://host" "shop" "name" true initial
           (snd (fetch_tables Examples.open_server "pg://host" "shop" "name"
                              true initial))).
  reflexivity.
Defined.

(** X13: with any value of the fields option other than [show], a run
    never sends the column query, and every table of every database it
    produces has no field, whatever the server answers and however the
    run ends. *)
Theorem hidden_fields_never_queried
    (srv : server) (kw : kwargs) (st : state) :
  kw_fields kw <> "show"%string ->
  let run := main srv kw st in
  exists evs,
    log (snd run) = log st ++ evs /\
    ~ In SelectColumns (queries evs) /\
    Forall (fun d => without_fields (Database.tables d)) (yielded evs).
Proof.
  intros Hf run. subst run. unfold main, fetch_and_display_all.
  apply String.eqb_neq in Hf. rewrite Hf.
  apply fetch_databases_hidden_fields.
Qed.

Lemma hidden_fields_never_queried_witness :
  let run := main Examples.open_server
                  (mkKwargs "name" "show" "hide" "show" "show" "pg://host")
                  initial in
  exists evs,
    log (snd run) = log initial ++ evs /\
    ~ In SelectColumns (queries evs) /\
    Forall (fun d => without_fields (Database.tables d)) (yielded evs).
Proof.
  apply (hidden_fields_never_queried Examples.open_server
           (mkKwargs "name" "show" "hide" "show" "show" "pg://host") initial).
  simpl. discriminate.
Defined.

(** X14: the only error of the server a run survives is an
    [InsufficientPrivilegeError]: every error the server raises during a
    run, on a connection attempt or on a query, is either an
    [InsufficientPrivilegeError] or the error the run ends with.  In
    particular a run that ends normally has met no other error. *)
Theorem only_privilege_errors_are_swallowed
    (srv : server) (kw : kwargs) (st : state) :
  let run := main srv kw st in
  exists evs,
    log (snd run) = log st ++ evs /\
    forall e, In e (raised evs) ->
              e = InsufficientPrivilegeError \/ fst run = inl e.
Proof.
  intros run. subst run. unfold main, fetch_and_display_all.
  apply fetch_databases_errors.
Qed.

(** X15: [fetch_tables] swallows nothing and produces nothing: an error
    the server raises on its connection attempt or on one of its queries
    is the error [fetch_tables] raises, and it yields no database. *)
Theorem fetch_tables_propagates_server_errors
    (srv : server) (base_dsn database_name sort : string)
    (show_fields : bool) (st : state) :
  let run := fetch_tables srv base_dsn database_name sort show_fields st in
  exists evs,
    log (snd run) = log st ++ evs /\
    yielded evs = [] /\
    forall e, In e (raised evs) -> fst run = inl e.
Proof. apply fetch_tables_errors. Qed.
